(** * neuralpredictors.utils: flatten_json and the HDF5 dictionary loader

    A shallow embedding of [flatten_json], [load_dict_from_hdf5] and
    [recursively_load_dict_contents_from_group] from
    [neuralpredictors/utils.py], with the properties of the nested-structure
    serialization subsystem proved about it. *)

From Stdlib Require Import Ascii String.
From stdpp Require Import base tactics option list numbers strings pretty.

Local Open Scope string_scope.
Local Open Scope list_scope.
Set Warnings "-register-all".

(** ** Python values shared by both functions *)

(** The exceptions the functions can raise.  [ValueError] carries the
    message given to its constructor.  The others are raised by h5py, numpy
    and the interpreter with messages of their own, which are not modelled:
    [KeyError] is the store's error for a name it does not have, and records
    the name whose lookup failed (h5py words it into its message);
    [TypeError] is what indexing with [()] raises on an object that is not a
    dataset, [AttributeError] what [.items()] raises on an object that is
    not a group, and [UnicodeDecodeError] what [astype(str)] raises on a
    byte string that is not ASCII. *)
Inductive exn : Type :=
  | ValueError (msg : string)
  | KeyError (key : string)
  | TypeError
  | AttributeError
  | UnicodeDecodeError
  | OSError (filename : string).

(** The arguments the source gave the exception it raised ([e.args] for the
    [ValueError] of [flatten_json]); the messages of the libraries'
    exceptions are not modelled. *)
Definition exn_args (e : exn) : list string :=
  match e with
  | ValueError msg => [msg]
  | _ => []
  end.

(** A call either returns a value or raises. *)
Inductive result (A : Type) : Type :=
  | Ok (a : A)
  | Raise (e : exn).
Arguments Ok {A} a.
Arguments Raise {A} e.

(** Sequencing: an exception raised by the first computation ends the whole
    computation. *)
Global Instance result_ret : MRet result := @Ok.
Global Instance result_bind : MBind result := λ A B k r,
  match r with
  | Ok a => k a
  | Raise e => Raise e
  end.

(** *** Insertion-ordered dictionaries with string keys

    A Python [dict] keeps its items in insertion order; [d[k] = v] replaces
    the value of an existing key in place and appends a new key at the end. *)
Section pydict.
Context {A : Type}.

Definition pydict := list (string * A).

Fixpoint dict_get (d : list (string * A)) (k : string) : option A :=
  match d with
  | [] => None
  | (k', a) :: d' => if decide (k' = k) then Some a else dict_get d' k
  end.

(** [k in d] *)
Definition dict_in (k : string) (d : list (string * A)) : bool :=
  bool_decide (is_Some (dict_get d k)).

(** [d[k] = a] *)
Fixpoint dict_set (d : list (string * A)) (k : string) (a : A)
    : list (string * A) :=
  match d with
  | [] => [(k, a)]
  | (k', a') :: d' =>
      if decide (k' = k) then (k, a) :: d' else (k', a') :: dict_set d' k a
  end.
End pydict.
Arguments pydict : clear implicits.

(** [s[:-1]]: the string without its last character; the empty string stays
    empty. *)
Fixpoint drop_last (s : string) : string :=
  match s with
  | "" => ""
  | String c s' =>
      match s' with
      | "" => ""
      | String _ _ => String c (drop_last s')
      end
  end.

(** ** flatten_json *)

(** The argument of [flatten_json]: a dictionary ([isinstance(x, dict)]) whose
    values are again trees, or any other Python object, which is a leaf. *)
Inductive node (V : Type) : Type :=
  | Leaf (v : V)
  | Dict (items : list (string * node V)).
Arguments Leaf {V} v.
Arguments Dict {V} items.

Definition duplicate_msg : string := "Multiple entries with identical names".

Section flatten.
Context {V : Type}.

(** The inner function [flatten(x, name)], with the dictionary [out] of the
    enclosing scope passed in and out. *)
Fixpoint flatten (keep_nested_name : bool) (x : node V) (name : string)
    (out : pydict V) : result (pydict V) :=
  match x with
  | Dict items =>
      (fix loop (items : list (string * node V)) (out : pydict V)
          : result (pydict V) :=
         match items with
         | [] => Ok out
         | (key, value) :: items' =>
             out' ← flatten keep_nested_name value
                      ((if keep_nested_name then name else "") +:+ key +:+ "_")
                      out;
             loop items' out'
         end) items out
  | Leaf v =>
      if dict_in (drop_last name) out
      then Raise (ValueError duplicate_msg)
      else Ok (dict_set out (drop_last name) v)
  end.

(** The [for key, value in x.items()] loop of [flatten], by itself. *)
Fixpoint flatten_items (keep_nested_name : bool)
    (items : list (string * node V)) (name : string) (out : pydict V)
    : result (pydict V) :=
  match items with
  | [] => Ok out
  | (key, value) :: items' =>
      out' ← flatten keep_nested_name value
               ((if keep_nested_name then name else "") +:+ key +:+ "_") out;
      flatten_items keep_nested_name items' name out'
  end.

Definition flatten_json (nested_dict : node V) (keep_nested_name : bool)
    : result (pydict V) :=
  flatten keep_nested_name nested_dict "" [].
End flatten.

(** ** The HDF5 store

    What the loader sees of an open [h5py.File]: a tree of groups and
    datasets.  A group has attributes and named members, listed in the order
    [.items()] reports them; a dataset has a value with an element type. *)

(** One element of a dataset's value. *)
Inductive elem : Type :=
  | Bytes (b : string)
  | Text (s : string)
  | Num (z : Z).

(** The value [item[()]] of a dataset: its [dtype.char], its shape and its
    elements in row-major order. *)
Record ndarray : Type := NdArray {
  dtype_char : ascii;
  shape : list nat;
  data : list elem;
}.

(** [str] of one element, as [astype(str)] applies it. *)
Definition elem_str (e : elem) : elem :=
  match e with
  | Bytes b => Text b
  | Text s => Text s
  | Num z => Text (pretty z)
  end.

(** A byte string numpy can decode: all its bytes are ASCII. *)
Fixpoint ascii_only (s : string) : bool :=
  match s with
  | "" => true
  | String c s' => (nat_of_ascii c <? 128)%nat && ascii_only s'
  end.

Definition elem_decodes (e : elem) : bool :=
  match e with
  | Bytes b => ascii_only b
  | _ => true
  end.

(** [v.astype(str)]: every element converted, the shape kept, the element
    type now unicode text.  numpy decodes byte strings as ASCII and raises
    on a byte that is not. *)
Definition astype_str (v : ndarray) : result ndarray :=
  if forallb elem_decodes (data v)
  then Ok {| dtype_char := "U"; shape := shape v; data := elem_str <$> data v |}
  else Raise UnicodeDecodeError.

(** The value the loop computes for a dataset:
    [v = item[()]], and [v = v.astype(str)] when [dtype.char == "S"]. *)
Definition dataset_value (v : ndarray) : result ndarray :=
  if decide (dtype_char v = "S"%char) then astype_str v else Ok v.

(** The members of a group: datasets, groups, and objects that are neither,
    such as a committed datatype ([h5py.Datatype]). *)
Inductive h5item : Type :=
  | Dataset (v : ndarray)
  | Group (attrs : list (string * bool)) (members : list (string * h5item))
  | Datatype.

(** [item.attrs.get(name, default)] *)
Definition attrs_get (attrs : list (string * bool)) (name : string)
    (default : bool) : bool :=
  match dict_get attrs name with
  | Some b => b
  | None => default
  end.

(** [group[name]] for a link name: the member, or [KeyError]. *)
Definition member (members : list (string * h5item)) (name : string)
    : result h5item :=
  match dict_get members name with
  | Some item => Ok item
  | None => Raise (KeyError name)
  end.

(** [item[()]]: the value of a dataset; a group or a datatype cannot be
    indexed by [()]. *)
Definition read_value (item : h5item) : result ndarray :=
  match item with
  | Dataset v => Ok v
  | Group _ _ => Raise TypeError
  | Datatype => Raise TypeError
  end.

(** [h5file[path]].  A path ["/k1/k2/.../kn/"] is kept as the list of its link
    names [[k1; ...; kn]] (a link name contains no ["/"]), so that
    [path + key + "/"] is [path ++ [key]]. *)
Fixpoint h5_getitem (h5file : h5item) (path : list string) : result h5item :=
  match path with
  | [] => Ok h5file
  | k :: path' =>
      match h5file with
      | Group _ members => item ← member members k; h5_getitem item path'
      | _ => Raise (KeyError k)
      end
  end.

(** What a loaded file is made of: arrays, lists of arrays and dictionaries. *)
Inductive pyobj : Type :=
  | PArr (v : ndarray)
  | PList (l : list ndarray)
  | PDict (d : list (string * pyobj)).

(** [[item[str(i)][()] for i in indices]] *)
Fixpoint read_elements (members : list (string * h5item)) (indices : list nat)
    : result (list ndarray) :=
  match indices with
  | [] => Ok []
  | i :: indices' =>
      child ← member members (pretty i);
      v ← read_value child;
      vs ← read_elements members indices';
      Ok (v :: vs)
  end.

(** The body of [for key, item in h5file[path].items()], with the recursive
    call on [path + key + "/"] as [rec key].  [None] is a recursive call that
    ran out of fuel.  The [if ... elif ...] has no [else]: an item that is
    neither a dataset nor a group is passed over. *)
Fixpoint load_items (rec : string → option (result (pydict pyobj)))
    (items : list (string * h5item)) (ans : pydict pyobj)
    : option (result (pydict pyobj)) :=
  match items with
  | [] => Some (Ok ans)
  | (key, item) :: items' =>
      match item with
      | Dataset v =>
          match dataset_value v with
          | Raise e => Some (Raise e)
          | Ok v => load_items rec items' (dict_set ans key (PArr v))
          end
      | Group attrs members =>
          if attrs_get attrs "_iterable" false then
            match read_elements members (seq 0 (length members)) with
            | Raise e => Some (Raise e)
            | Ok l => load_items rec items' (dict_set ans key (PList l))
            end
          else
            match rec key with
            | None => None
            | Some (Raise e) => Some (Raise e)
            | Some (Ok d) => load_items rec items' (dict_set ans key (PDict d))
            end
      | Datatype => load_items rec items' ans
      end
  end.

(** [recursively_load_dict_contents_from_group(h5file, path)].  The recursion
    of the source follows the tree of the file; here it is bounded by [fuel],
    and [None] means the bound was reached. *)
Fixpoint recursively_load_dict_contents_from_group (fuel : nat)
    (h5file : h5item) (path : list string) : option (result (pydict pyobj)) :=
  match fuel with
  | 0 => None
  | S fuel' =>
      match h5_getitem h5file path with
      | Raise e => Some (Raise e)
      | Ok (Group _ members) =>
          load_items
            (λ key, recursively_load_dict_contents_from_group fuel' h5file
                      (path ++ [key]))
            members []
      | Ok _ => Some (Raise AttributeError)
      end
  end.

(** *** Opening and closing the file *)

Inductive event : Type :=
  | EvOpen (id : nat)
  | EvRead (id : nat)
  | EvClose (id : nat).

(** The process: the identifiers of the files it holds open, the next free
    identifier, and what it has done so far. *)
Record world : Type := World {
  opened : list nat;
  next_id : nat;
  trace : list event;
}.

Record handle : Type := Handle {
  hid : nat;
  contents : h5item;
}.

(** [h5py.File(filename, "r")] on the file system [fs]. *)
Definition h5py_File (fs : pydict h5item) (filename : string) (w : world)
    : result handle * world :=
  match dict_get fs filename with
  | None => (Raise (OSError filename), w)
  | Some root =>
      (Ok (Handle (next_id w) root),
       World (next_id w :: opened w) (S (next_id w))
             (trace w ++ [EvOpen (next_id w)]))
  end.

(** [h5file.close()], which [__exit__] calls. *)
Definition h5_close (h : handle) (w : world) : world :=
  World (filter (λ i, i ≠ hid h) (opened w)) (next_id w)
        (trace w ++ [EvClose (hid h)]).

(** Reading through a handle: its file has to be open. *)
Definition h5_read {A} (h : handle) (f : h5item → option (result A))
    (w : world) : option (result A) * world :=
  if decide (hid h ∈ opened w)
  then (f (contents h),
        World (opened w) (next_id w) (trace w ++ [EvRead (hid h)]))
  else (Some (Raise (ValueError "Invalid location identifier")), w).

(** [load_dict_from_hdf5(filename)]: the [with] statement enters the file,
    runs the body, and exits the file whether the body returned or raised. *)
Definition load_dict_from_hdf5 (fuel : nat) (fs : pydict h5item)
    (filename : string) (w : world)
    : option (result (pydict pyobj)) * world :=
  match h5py_File fs filename w with
  | (Raise e, w1) => (Some (Raise e), w1)
  | (Ok h5file, w1) =>
      let '(r, w2) :=
        h5_read h5file
          (λ root, recursively_load_dict_contents_from_group fuel root []) w1 in
      (r, h5_close h5file w2)
  end.

(** ** Notions the properties are stated with *)

Section flatten_notions.
Context {V : Type}.

(** The entries [flatten] records for the leaves of [x], in the order it
    reaches them: the computed key [name[:-1]] and the leaf's value. *)
Fixpoint leaves (keep_nested_name : bool) (name : string) (x : node V)
    : list (string * V) :=
  match x with
  | Leaf v => [(drop_last name, v)]
  | Dict items =>
      flat_map
        (λ kv, leaves keep_nested_name
                 ((if keep_nested_name then name else "") +:+ kv.1 +:+ "_")
                 kv.2)
        items
  end.

(** The leaves of a tree with the names on their way from the root. *)
Fixpoint paths (x : node V) : list (list string * V) :=
  match x with
  | Leaf v => [([], v)]
  | Dict items =>
      flat_map (λ kv, (λ pv, (kv.1 :: pv.1, pv.2)) <$> paths kv.2) items
  end.

(** Two trees are isomorphic when they have the same leaf values at the
    same paths. *)
Definition same_leaves (x y : node V) : Prop :=
  ∀ p v, (p, v) ∈ paths x ↔ (p, v) ∈ paths y.

(** A tree without any leaf: groups all the way down. *)
Fixpoint hollow (x : node V) : bool :=
  match x with
  | Leaf _ => false
  | Dict items => forallb (λ kv, hollow kv.2) items
  end.

(** A tree with one subtree left open, and filling it. *)
Inductive context : Type :=
  | Hole
  | InDict (before : list (string * node V)) (key : string) (c : context)
      (after : list (string * node V)).

Fixpoint plug (c : context) (x : node V) : node V :=
  match c with
  | Hole => x
  | InDict before key c' after => Dict (before ++ (key, plug c' x) :: after)
  end.

(** Recording a list of entries one after the other, as the leaf branch of
    [flatten] does. *)
Fixpoint record_all (entries : list (string * V)) (out : pydict V)
    : result (pydict V) :=
  match entries with
  | [] => Ok out
  | (k, v) :: entries' =>
      if dict_in k out
      then Raise (ValueError duplicate_msg)
      else record_all entries' (dict_set out k v)
  end.
End flatten_notions.
Arguments context : clear implicits.

(** The name [flatten] has built, with joined names, when it has descended
    along a path: every name followed by the separator. *)
Fixpoint joined (path : list string) : string :=
  match path with
  | [] => ""
  | k :: path' => k +:+ "_" +:+ joined path'
  end.

(** [c in s] for a character. *)
Fixpoint contains (c : ascii) (s : string) : bool :=
  match s with
  | "" => false
  | String c' s' => bool_decide (c' = c) || contains c s'
  end.

(** [s.split(sep)] for a one-character separator. *)
Fixpoint str_split (sep : ascii) (s : string) : list string :=
  match s with
  | "" => [""]
  | String c s' =>
      if decide (c = sep) then "" :: str_split sep s'
      else match str_split sep s' with
           | [] => [String c ""]
           | w :: ws => String c w :: ws
           end
  end.

Section renest.
Context {V : Type}.

(** Modelled from the spec: re-nesting, which the source does not have.  As
    the round-trip property words it, every key of the flat mapping is split
    on the separator; the segments but the last name the groups to descend
    into (created when missing) and the last names the leaf. *)
Fixpoint insert_path (path : list string) (v : V)
    (items : list (string * node V)) : list (string * node V) :=
  match path with
  | [] => items
  | k :: path' =>
      match path' with
      | [] => dict_set items k (Leaf v)
      | _ :: _ =>
          dict_set items k
            (Dict (insert_path path' v
                     match dict_get items k with
                     | Some (Dict sub) => sub
                     | _ => []
                     end))
      end
  end.

(** Modelled from the spec: the tree re-nested from a flat mapping, its
    entries inserted in the order of the mapping. *)
Definition renest (flat : pydict V) : node V :=
  Dict (foldl (λ items kv, insert_path (str_split "_" kv.1) kv.2 items)
          [] flat).

(** The same insertions for paths that are already split. *)
Definition insert_paths (ps : list (list string * V))
    (items : list (string * node V)) : list (string * node V) :=
  foldl (λ items pv, insert_path pv.1 pv.2 items) items ps.

(** Trees that survive the round trip: below the root no group is empty,
    and in every group the names are distinct and free of the separator. *)
Fixpoint plain (x : node V) : bool :=
  match x with
  | Leaf _ => true
  | Dict items =>
      negb (bool_decide (items = []))
      && bool_decide (NoDup items.*1)
      && forallb (λ kv, negb (contains "_" kv.1) && plain kv.2) items
  end.

Definition plain_root (items : list (string * node V)) : bool :=
  bool_decide (NoDup items.*1)
  && forallb (λ kv, negb (contains "_" kv.1) && plain kv.2) items.

(** Trees in which the names within every group are distinct and free of
    the separator; groups may be empty. *)
Fixpoint tidy (x : node V) : bool :=
  match x with
  | Leaf _ => true
  | Dict items =>
      bool_decide (NoDup items.*1)
      && forallb (λ kv, negb (contains "_" kv.1) && tidy kv.2) items
  end.

(** The tree without its subtrees that have no leaf. *)
Fixpoint prune (x : node V) : node V :=
  match x with
  | Leaf v => Leaf v
  | Dict items =>
      Dict (flat_map
              (λ kv, match prune kv.2 with
                     | Dict [] => []
                     | c => [(kv.1, c)]
                     end)
              items)
  end.
End renest.

Section loader_notions.

Definition iterable (attrs : list (string * bool)) : bool :=
  attrs_get attrs "_iterable" false.

Definition is_dataset (item : h5item) : bool :=
  match item with Dataset _ => true | _ => false end.

Definition is_datatype (item : h5item) : bool :=
  match item with Datatype => true | _ => false end.

(** The loader by recursion on the item [h5file[path]] itself. *)
Fixpoint load_item (item : h5item) : result (pydict pyobj) :=
  match item with
  | Dataset _ => Raise AttributeError
  | Datatype => Raise AttributeError
  | Group _ members =>
      (fix loop (items : list (string * h5item)) (ans : pydict pyobj)
          : result (pydict pyobj) :=
         match items with
         | [] => Ok ans
         | (key, it) :: items' =>
             match it with
             | Dataset v =>
                 v ← dataset_value v;
                 loop items' (dict_set ans key (PArr v))
             | Group attrs cs =>
                 if attrs_get attrs "_iterable" false then
                   l ← read_elements cs (seq 0 (length cs));
                   loop items' (dict_set ans key (PList l))
                 else
                   d ← load_item it;
                   loop items' (dict_set ans key (PDict d))
             | Datatype => loop items' ans
             end
         end) members []
  end.

(** The same loop, named. *)
Fixpoint load_members (items : list (string * h5item)) (ans : pydict pyobj)
    : result (pydict pyobj) :=
  match items with
  | [] => Ok ans
  | (key, it) :: items' =>
      match it with
      | Dataset v =>
          v ← dataset_value v;
          load_members items' (dict_set ans key (PArr v))
      | Group attrs cs =>
          if attrs_get attrs "_iterable" false then
            l ← read_elements cs (seq 0 (length cs));
            load_members items' (dict_set ans key (PList l))
          else
            d ← load_item it;
            load_members items' (dict_set ans key (PDict d))
      | Datatype => load_members items' ans
      end
  end.

(** Nesting depth of groups. *)
Fixpoint depth (item : h5item) : nat :=
  match item with
  | Group _ members => S (max_list_with (λ kv, depth kv.2) members)
  | _ => 0
  end.

(** In a store the names within one group are distinct. *)
Fixpoint wf (item : h5item) : bool :=
  match item with
  | Group _ members =>
      bool_decide (NoDup members.*1) && forallb (λ kv, wf kv.2) members
  | _ => true
  end.

(** The elements of ordered groups are datasets, as the data model expects
    them: no marked group that the loader reaches has a group as member. *)
Fixpoint leaf_shaped (item : h5item) : bool :=
  match item with
  | Group attrs members =>
      if iterable attrs then forallb (λ kv, is_dataset kv.2) members
      else forallb (λ kv, leaf_shaped kv.2) members
  | _ => true
  end.

Definition leaf_shaped_members (members : list (string * h5item)) : bool :=
  forallb (λ kv, leaf_shaped kv.2) members.

(** The byte-string datasets the loader converts, those outside the marked
    groups, are ASCII. *)
Fixpoint decodable (item : h5item) : bool :=
  match item with
  | Dataset v =>
      if decide (dtype_char v = "S"%char) then forallb elem_decodes (data v)
      else true
  | Group attrs members =>
      if iterable attrs then true
      else forallb (λ kv, decodable kv.2) members
  | Datatype => true
  end.

Definition decodable_members (members : list (string * h5item)) : bool :=
  forallb (λ kv, decodable kv.2) members.

(** What makes the loop raise when it reaches an item. *)
Definition item_raises (item : h5item) : Prop :=
  match item with
  | Group attrs cs =>
      if iterable attrs
      then ∃ e, read_elements cs (seq 0 (length cs)) = Raise e
      else ∃ e, load_item item = Raise e
  | _ => False
  end.

(** The item the loader encounters under the relative path [path] when it
    loads a group with these members: it descends through the groups that
    are not marked. *)
Fixpoint visits (members : list (string * h5item)) (path : list string)
    : option h5item :=
  match path with
  | [] => None
  | k :: path' =>
      match dict_get members k with
      | None => None
      | Some item =>
          match path' with
          | [] => Some item
          | _ :: _ =>
              match item with
              | Group attrs cs =>
                  if iterable attrs then None else visits cs path'
              | _ => None
              end
          end
      end
  end.

(** The object of a loaded dictionary under a path of keys. *)
Fixpoint obj_at (d : pydict pyobj) (path : list string) : option pyobj :=
  match path with
  | [] => None
  | k :: path' =>
      match dict_get d k with
      | None => None
      | Some o =>
          match path' with
          | [] => Some o
          | _ :: _ =>
              match o with
              | PDict d' => obj_at d' path'
              | _ => None
              end
          end
      end
  end.

(** The value the loader is to expose for a dataset: text for byte
    strings, the raw value for everything else. *)
Definition exposed (v : ndarray) : ndarray :=
  if decide (dtype_char v = "S"%char)
  then {| dtype_char := "U"; shape := shape v; data := elem_str <$> data v |}
  else v.

(** The object the loop stores for an item, when it stores one. *)
Definition stored (item : h5item) (o : pyobj) : Prop :=
  match item with
  | Dataset v => o = PArr (exposed v)
  | Group attrs cs =>
      if iterable attrs
      then ∃ l, read_elements cs (seq 0 (length cs)) = Ok l ∧ o = PList l
      else ∃ d, load_members cs [] = Ok d ∧ o = PDict d
  | Datatype => False
  end.





End loader_notions.

(** Equality of trees as Python compares dictionaries: the same keys with
    equal values, in whatever order the items stand. *)
Inductive dict_eq {V : Type} : node V → node V → Prop :=
  | dict_eq_leaf v : dict_eq (Leaf v) (Leaf v)
  | dict_eq_nil : dict_eq (Dict []) (Dict [])
  | dict_eq_skip k c c' items items' :
      dict_eq c c' → dict_eq (Dict items) (Dict items') →
      dict_eq (Dict ((k, c) :: items)) (Dict ((k, c') :: items'))
  | dict_eq_swap kc kc' items :
      dict_eq (Dict (kc :: kc' :: items)) (Dict (kc' :: kc :: items))
  | dict_eq_trans x y z : dict_eq x y → dict_eq y z → dict_eq x z.

(** A flat mapping as the one-level tree it is. *)
Definition flat_tree {V : Type} (flat : pydict V) : node V :=
  Dict ((λ kv, (kv.1, Leaf kv.2)) <$> flat).

(** The group has a dataset under the name [str(i)]. *)
Definition has_element (cs : list (string * h5item)) (i : nat) : bool :=
  match dict_get cs (pretty i) with
  | Some (Dataset _) => true
  | _ => false
  end.

(** Stores the loader can load: every marked group it reaches has a dataset
    for each index below the number of its members, and every byte-string
    dataset it converts is ASCII. *)
Fixpoint loadable (item : h5item) : bool :=
  match item with
  | Dataset v =>
      if decide (dtype_char v = "S"%char) then forallb elem_decodes (data v)
      else true
  | Group attrs cs =>
      if iterable attrs then forallb (has_element cs) (seq 0 (length cs))
      else forallb (λ kv, loadable kv.2) cs
  | Datatype => true
  end.

Definition loadable_members (members : list (string * h5item)) : bool :=
  forallb (λ kv, loadable kv.2) members.

(** ** HiddenPrints *)

(** Objects are told apart by their identity, a number; [fn_set f i a] is
    the store [f] with the object [i] replaced by [a]. *)
Definition fn_set {A} (f : nat → A) (i : nat) (a : A) : nat → A :=
  λ j, if decide (j = i) then a else f j.

(** A file object: whether it was opened on [os.devnull], whether it has
    been closed, and what has been written to it and kept. *)
Record file : Type := File {
  devnull : bool;
  closed : bool;
  written : list string;
}.

(** The interpreter as [HiddenPrints] sees it: the file objects, the next
    free identity, the file [sys.stdout] refers to, and the attribute
    [_original_stdout] of every [HiddenPrints] instance, once it is set. *)
Record interp : Type := Interp {
  files : nat → file;
  next_file : nat;
  sys_stdout : nat;
  original_stdout : nat → option nat;
}.

(** [f.write(s)]: a file on [os.devnull] keeps nothing. *)
Definition file_write (s : string) (f : file) : file :=
  if devnull f then f else File (devnull f) (closed f) (written f ++ [s]).

(** [sys.stdout.write(s)], which [print] comes down to. *)
Definition stdout_write (s : string) (rt : interp) : result unit * interp :=
  if closed (files rt (sys_stdout rt))
  then (Raise (ValueError "I/O operation on closed file."), rt)
  else (Ok (),
        Interp (fn_set (files rt) (sys_stdout rt)
                  (file_write s (files rt (sys_stdout rt))))
               (next_file rt) (sys_stdout rt) (original_stdout rt)).

(** One [sys.stdout.write] after the other, up to the first that raises. *)
Fixpoint stdout_write_all (ss : list string) (rt : interp)
    : result unit * interp :=
  match ss with
  | [] => (Ok (), rt)
  | s :: ss' =>
      match stdout_write s rt with
      | (Raise e, rt') => (Raise e, rt')
      | (Ok _, rt') => stdout_write_all ss' rt'
      end
  end.

(** [f.close()] *)
Definition file_close (id : nat) (rt : interp) : interp :=
  Interp (fn_set (files rt) id
            (File (devnull (files rt id)) true (written (files rt id))))
         (next_file rt) (sys_stdout rt) (original_stdout rt).

(** [HiddenPrints.__enter__(self)]:
    [self._original_stdout = sys.stdout] and then
    [sys.stdout = open(os.devnull, "w")]. *)
Definition HiddenPrints_enter (self : nat) (rt : interp) : interp :=
  Interp (fn_set (files rt) (next_file rt) (File true false []))
         (S (next_file rt))
         (next_file rt)
         (fn_set (original_stdout rt) self (Some (sys_stdout rt))).

(** [HiddenPrints.__exit__(self, ...)]: [sys.stdout.close()] and then
    [sys.stdout = self._original_stdout]. *)
Definition HiddenPrints_exit (self : nat) (rt : interp)
    : result unit * interp :=
  let rt1 := file_close (sys_stdout rt) rt in
  match original_stdout rt1 self with
  | None => (Raise AttributeError, rt1)
  | Some f =>
      (Ok (), Interp (files rt1) (next_file rt1) f (original_stdout rt1))
  end.

(** [with self: body] for the [HiddenPrints] instance [self].  [__exit__]
    returns [None], so an exception of the body goes on after it. *)
Definition with_HiddenPrints {A} (self : nat)
    (body : interp → result A * interp) (rt : interp) : result A * interp :=
  let '(r, rt2) := body (HiddenPrints_enter self rt) in
  match HiddenPrints_exit self rt2 with
  | (Raise e, rt3) => (Raise e, rt3)
  | (Ok _, rt3) => (r, rt3)
  end.

(** ** no_transforms *)

(** The dataset object [dat] and the list objects around it: the lists by
    identity, the next free identity, and the list the attribute
    [dat.transforms] refers to, when [dat] has the attribute. *)
Record dataset (T : Type) : Type := Dataset_obj {
  lists : nat → list T;
  next_list : nat;
  transforms : option nat;
}.
Arguments Dataset_obj {T} lists next_list transforms.
Arguments lists {T} d.
Arguments next_list {T} d.
Arguments transforms {T} d.

Section no_transforms.
Context {T : Type}.

(** [list(dat.transforms)]: the transforms the dataset applies. *)
Definition read_transforms (d : dataset T) : result (list T) :=
  match transforms d with
  | Some l => Ok (lists d l)
  | None => Raise AttributeError
  end.

(** [dat.transforms.append(t)] *)
Definition transforms_append (t : T) (d : dataset T)
    : result unit * dataset T :=
  match transforms d with
  | Some l =>
      (Ok (),
       Dataset_obj (fn_set (lists d) l (lists d l ++ [t])) (next_list d)
         (transforms d))
  | None => (Raise AttributeError, d)
  end.

Fixpoint transforms_append_all (ts : list T) (d : dataset T)
    : result unit * dataset T :=
  match ts with
  | [] => (Ok (), d)
  | t :: ts' =>
      match transforms_append t d with
      | (Raise e, d') => (Raise e, d')
      | (Ok _, d') => transforms_append_all ts' d'
      end
  end.

(** [dat.transforms = []]: the attribute refers to a new, empty list. *)
Definition clear_transforms (d : dataset T) : dataset T :=
  Dataset_obj (fn_set (lists d) (next_list d) []) (S (next_list d))
    (Some (next_list d)).

(** [with no_transforms(dat): body].  The generator saves the list
    [dat.transforms] refers to, sets the attribute to a new empty list and
    yields; the [finally] sets the attribute back whether the body returned
    or raised, and an exception of the body goes on. *)
Definition with_no_transforms {A} (body : dataset T → result A * dataset T)
    (d : dataset T) : result A * dataset T :=
  match transforms d with
  | None => (Raise AttributeError, d)
  | Some saved =>
      let '(r, d2) := body (clear_transforms d) in
      (r, Dataset_obj (lists d2) (next_list d2) (Some saved))
  end.
End no_transforms.

(** * Properties *)

(** ** Dictionaries and strings *)

Section pydict_facts.
Context {A : Type}.
Implicit Types (d : list (string * A)) (k : string) (a : A).

Lemma dict_get_None d k : dict_get d k = None ↔ k ∉ d.*1.
Proof.
  induction d as [|[k' a'] d IH]; simpl.
  - split; [intros _; apply not_elem_of_nil | done].
  - case_decide as Hk; subst.
    + split; [done | intros Hn; destruct Hn; left].
    + rewrite IH, not_elem_of_cons.
      split; [intros ?; split; [congruence | done] | by intros [_ ?]].
Qed.

Lemma dict_in_true d k : dict_in k d = true ↔ k ∈ d.*1.
Proof.
  unfold dict_in. rewrite bool_decide_eq_true, <-not_eq_None_Some, dict_get_None.
  destruct (decide (k ∈ d.*1)); naive_solver.
Qed.

Lemma dict_in_false d k : dict_in k d = false ↔ k ∉ d.*1.
Proof. rewrite <-dict_in_true. destruct (dict_in k d); naive_solver. Qed.

(** Setting a key the dictionary does not have appends it. *)
Lemma dict_set_fresh d k a : k ∉ d.*1 → dict_set d k a = d ++ [(k, a)].
Proof.
  induction d as [|[k' a'] d IH]; simpl; [done|].
  rewrite not_elem_of_cons. intros [Hne Hd].
  case_decide; [congruence|]. by rewrite IH.
Qed.

Lemma dict_get_elem_of d k a :
  NoDup d.*1 → (k, a) ∈ d → dict_get d k = Some a.
Proof.
  induction d as [|[k' a'] d IH]; simpl; [by intros _ ?%elem_of_nil|].
  rewrite NoDup_cons. intros [Hk' Hd] [Heq|Hin]%elem_of_cons.
  - simplify_eq. by rewrite decide_True.
  - case_decide as Hk; [|by apply IH]. subst k'.
    destruct Hk'. apply list_elem_of_fmap. by exists (k, a).
Qed.

Lemma dict_get_Some_elem_of d k a : dict_get d k = Some a → (k, a) ∈ d.
Proof.
  induction d as [|[k' a'] d IH]; simpl; [done|].
  case_decide; [intros; simplify_eq; left | right; auto].
Qed.

Lemma dict_get_app_fresh d k a : k ∉ d.*1 → dict_get (d ++ [(k, a)]) k = Some a.
Proof.
  induction d as [|[k' a'] d IH]; simpl.
  - intros _. by rewrite decide_True.
  - rewrite not_elem_of_cons. intros [Hne Hd].
    case_decide; [congruence | by apply IH].
Qed.
End pydict_facts.

Lemma drop_last_cons c s : s ≠ "" → drop_last (String c s) = String c (drop_last s).
Proof. by destruct s. Qed.

Lemma append_nonempty_r s t : t ≠ "" → s +:+ t ≠ "".
Proof. by destruct s, t. Qed.

Lemma drop_last_app s t : t ≠ "" → drop_last (s +:+ t) = s +:+ drop_last t.
Proof.
  intros Ht. induction s as [|c s IH]; [done|].
  change (String c s +:+ t) with (String c (s +:+ t)).
  rewrite drop_last_cons by by apply append_nonempty_r.
  by rewrite IH.
Qed.

Lemma append_empty_r s : s +:+ "" = s.
Proof.
  induction s as [|c s IH]; [done|].
  change (String c (s +:+ "") = String c s). by f_equal.
Qed.

Lemma append_assoc s t u : (s +:+ t) +:+ u = s +:+ (t +:+ u).
Proof.
  induction s as [|c s IH]; [done|].
  change (String c ((s +:+ t) +:+ u) = String c (s +:+ (t +:+ u))). by f_equal.
Qed.

(** The name built for a child, cut at the leaf, is the child's name. *)
Lemma drop_last_key k : drop_last (k +:+ "_") = k.
Proof. rewrite drop_last_app by done. apply append_empty_r. Qed.

(** ** flatten_json *)

Section flatten_facts.
Context {V : Type}.
Implicit Types (x : node V) (items : list (string * node V)).
Implicit Types (out : pydict V) (name : string) (keep : bool).

(** Induction on trees with the hypothesis for every child of a group. *)
Lemma node_ind' (P : node V → Prop) :
  (∀ v, P (Leaf v)) →
  (∀ items, Forall (λ kv, P kv.2) items → P (Dict items)) →
  ∀ x, P x.
Proof.
  intros Hleaf Hdict. fix IH 1. intros [v|items]; [apply Hleaf|].
  apply Hdict. induction items as [|[k c] items IHitems]; constructor.
  - apply IH.
  - apply IHitems.
Qed.

Lemma flatten_Dict keep items name out :
  flatten keep (Dict items) name out = flatten_items keep items name out.
Proof.
  revert out. induction items as [|[key value] items IH]; intros out; [done|].
  simpl. destruct (flatten keep value _ out) as [out'|e]; simpl; [|done].
  apply IH.
Qed.

Lemma record_all_app (es1 es2 : list (string * V)) out :
  record_all (es1 ++ es2) out = out' ← record_all es1 out; record_all es2 out'.
Proof.
  revert out. induction es1 as [|[k v] es1 IH]; intros out; simpl; [done|].
  destruct (dict_in k out); [done | apply IH].
Qed.

(** [flatten] records the entries of the leaves in the order of the
    traversal. *)
Lemma flatten_record_all keep x name out :
  flatten keep x name out = record_all (leaves keep name x) out.
Proof.
  revert name out. induction x as [v|items IH] using node_ind';
    intros name out; [done|].
  rewrite flatten_Dict. revert out.
  induction IH as [|[key value] items Hvalue _ IHitems]; intros out; [done|].
  simpl in *. rewrite record_all_app, Hvalue.
  destruct (record_all _ out) as [out'|e]; simpl; [apply IHitems | done].
Qed.

(** Recording succeeds exactly when the keys are new and pairwise distinct,
    and then appends the entries; otherwise it raises. *)
Lemma record_all_spec (es : list (string * V)) out :
  record_all es out =
    if decide (NoDup es.*1 ∧ Forall (λ k, k ∉ out.*1) es.*1)
    then Ok (out ++ es)
    else Raise (ValueError duplicate_msg).
Proof.
  revert out. induction es as [|[k v] es IH]; intros out; cbn [record_all].
  - rewrite decide_True, app_nil_r; [done|]. split; constructor.
  - rewrite fmap_cons. cbn [fst]. destruct (dict_in k out) eqn:Hin.
    + apply dict_in_true in Hin. rewrite decide_False; [done|].
      by intros [_ [Hfresh _]%Forall_cons].
    + apply dict_in_false in Hin. rewrite IH, dict_set_fresh by done.
      rewrite fmap_app, fmap_cons. cbn [fst fmap list_fmap].
      case_decide as H1; case_decide as H2.
      * by rewrite <-app_assoc.
      * destruct H2. destruct H1 as [Hnd Hfresh].
        rewrite Forall_forall in Hfresh. split.
        -- apply NoDup_cons. split; [|done]. intros Hk.
           apply (Hfresh k Hk). apply elem_of_app. right. left.
        -- apply Forall_cons. split; [done|]. apply Forall_forall.
           intros k' Hk' Hout. apply (Hfresh k' Hk'), elem_of_app. by left.
      * destruct H1.
        destruct H2 as [[Hk Hnd]%NoDup_cons [_ Hfresh]%Forall_cons].
        rewrite Forall_forall in Hfresh. split; [done|]. apply Forall_forall.
        intros k' Hk' [Hout| ->%list_elem_of_singleton]%elem_of_app; [|done].
        by apply (Hfresh k').
      * done.
Qed.

(** What [flatten_json] returns, in terms of the computed keys. *)
Lemma flatten_json_spec x keep :
  flatten_json x keep =
    if decide (NoDup (leaves keep "" x).*1)
    then Ok (leaves keep "" x)
    else Raise (ValueError duplicate_msg).
Proof.
  unfold flatten_json. rewrite flatten_record_all, record_all_spec. simpl.
  case_decide as H1; case_decide as H2; try done.
  - by destruct H2, H1.
  - destruct H1. split; [done|]. apply Forall_forall.
    intros ? _. apply not_elem_of_nil.
Qed.

Lemma leaves_hollow keep name x : hollow x = true → leaves keep name x = [].
Proof.
  revert name. induction x as [v|items IH] using node_ind'; intros name; [done|].
  simpl. induction IH as [|[key value] items Hvalue _ IHitems]; [done|].
  simpl. intros [Hv Hitems]%andb_true_iff.
  by rewrite Hvalue, IHitems.
Qed.

Lemma leaves_plug_hollow keep name (c : context V) before key x after :
  hollow x = true →
  leaves keep name (plug c (Dict (before ++ (key, x) :: after)))
  = leaves keep name (plug c (Dict (before ++ after))).
Proof.
  intros Hx. revert name. induction c as [|b k c IH a]; intros name; simpl.
  - rewrite !flat_map_app. simpl. by rewrite (leaves_hollow _ _ _ Hx).
  - rewrite !flat_map_app. simpl. by rewrite IH.
Qed.

Lemma leaves_flat keep (l : list (string * V)) :
  leaves keep "" (Dict ((λ kv, (kv.1, Leaf kv.2)) <$> l)) = l.
Proof.
  change (flat_map
            (λ kv, leaves keep ((if keep then "" else "") +:+ kv.1 +:+ "_") kv.2)
            ((λ kv : string * V, (kv.1, Leaf kv.2)) <$> l) = l).
  induction l as [|[k v] l IH]; [done|].
  rewrite fmap_cons. cbn [flat_map]. rewrite IH. cbn [leaves fst snd app].
  f_equal. f_equal. destruct keep; apply drop_last_key.
Qed.
End flatten_facts.

(** *** Collisions *)

(** C1, as the specification words it, does not hold: flattening
    [{a: 1, b: {a: 2}}] with [keep_nested_name=False] raises, but the
    exception raised does not carry the offending key ["a"]. *)
Lemma flatten_collision_error_has_no_key :
  ¬ ∃ e : exn,
      flatten_json (Dict [("a", Leaf 1%Z); ("b", Dict [("a", Leaf 2%Z)])]) false
      = Raise e
      ∧ "a" ∈ exn_args e.
Proof.
  intros (e & Hraise & Hkey). rewrite flatten_json_spec in Hraise.
  rewrite decide_False in Hraise.
  - simplify_eq. by apply list_elem_of_singleton in Hkey.
  - by intros [Ha _]%NoDup_cons; destruct Ha; left.
Qed.

(** C1, amended: in either naming mode, when the computed keys of two leaves
    coincide, [flatten_json] raises the [ValueError] with the fixed message
    "Multiple entries with identical names" and returns no mapping. *)
Theorem flatten_collision_raises {V} (x : node V) (keep : bool)
    (i j : nat) (k : string) :
  i ≠ j →
  (leaves keep "" x).*1 !! i = Some k →
  (leaves keep "" x).*1 !! j = Some k →
  flatten_json x keep = Raise (ValueError duplicate_msg)
  ∧ exn_args (ValueError duplicate_msg)
    = ["Multiple entries with identical names"].
Proof.
  intros Hij Hi Hj. split; [|done].
  rewrite flatten_json_spec, decide_False; [done|].
  intros Hnd. apply Hij. by eapply NoDup_lookup.
Qed.

Lemma flatten_collision_raises_witness :
  0 ≠ 1
  ∧ flatten_json (Dict [("a", Leaf 1%Z); ("b", Dict [("a", Leaf 2%Z)])]) false
    = Raise (ValueError duplicate_msg).
Proof.
  split; [lia|].
  apply (flatten_collision_raises
           (Dict [("a", Leaf 1%Z); ("b", Dict [("a", Leaf 2%Z)])]) false
           0 1 "a"); [lia | reflexivity | reflexivity].
Defined.

(** Without a collision every leaf is recorded under its computed key. *)
Lemma flatten_no_collision {V} (x : node V) (keep : bool) :
  NoDup (leaves keep "" x).*1 → flatten_json x keep = Ok (leaves keep "" x).
Proof. intros Hnd. by rewrite flatten_json_spec, decide_True. Qed.

(** *** Names *)

(** C6: [{a: {b: 1, c: 2}}] flattens to [{"a_b": 1, "a_c": 2}] with joined
    names and to [{"b": 1, "c": 2}] with [keep_nested_name=False]. *)
Theorem flatten_json_example :
  flatten_json (Dict [("a", Dict [("b", Leaf 1%Z); ("c", Leaf 2%Z)])]) true
  = Ok [("a_b", 1%Z); ("a_c", 2%Z)]
  ∧ flatten_json (Dict [("a", Dict [("b", Leaf 1%Z); ("c", Leaf 2%Z)])]) false
    = Ok [("b", 1%Z); ("c", 2%Z)].
Proof. split; reflexivity. Qed.

(** C7: a one-level mapping with pairwise distinct keys is returned
    unchanged, in either naming mode. *)
Theorem flatten_flat_unchanged {V} (l : list (string * V)) (keep : bool) :
  NoDup l.*1 →
  flatten_json (Dict ((λ kv, (kv.1, Leaf kv.2)) <$> l)) keep = Ok l.
Proof.
  intros Hnd. rewrite flatten_json_spec, leaves_flat. by rewrite decide_True.
Qed.

Lemma flatten_flat_unchanged_witness :
  NoDup ([("lr", 3%Z); ("", 5%Z); ("seed", 7%Z)].*1)
  ∧ flatten_json (Dict [("lr", Leaf 3%Z); ("", Leaf 5%Z); ("seed", Leaf 7%Z)])
      false
    = Ok [("lr", 3%Z); ("", 5%Z); ("seed", 7%Z)].
Proof.
  assert (NoDup ([("lr", 3%Z); ("", 5%Z); ("seed", 7%Z)].*1)) as Hnd
    by (apply (bool_decide_unpack _); vm_compute; exact I).
  split; [exact Hnd|].
  apply (flatten_flat_unchanged [("lr", 3%Z); ("", 5%Z); ("seed", 7%Z)] false Hnd).
Defined.

(** C8: a bare leaf as the root gives the one-entry mapping from the empty
    string to the leaf's value, in both naming modes. *)
Theorem flatten_bare_leaf {V} (v : V) (keep : bool) :
  flatten_json (Leaf v) keep = Ok [("", v)].
Proof.
  unfold flatten_json. cbn [flatten drop_last].
  change (dict_in "" ([] : pydict V)) with false.
  destruct keep; reflexivity.
Qed.

(** *** Empty groups *)

(** C10: the empty mapping flattens to the empty mapping; a subtree without
    leaves records nothing and raises nothing, whatever the name and the
    entries recorded so far; and removing such a subtree anywhere in a tree
    does not change what [flatten_json] returns. *)
Theorem flatten_empty_groups_vanish {V} (keep : bool) (x : node V)
    (name : string) (out : pydict V) (c : context V)
    (before after : list (string * node V)) (key : string) :
  hollow x = true →
  flatten_json (Dict []) keep = Ok ([] : pydict V)
  ∧ flatten keep x name out = Ok out
  ∧ flatten_json (plug c (Dict (before ++ (key, x) :: after))) keep
    = flatten_json (plug c (Dict (before ++ after))) keep.
Proof.
  intros Hx. split; [done|]. split.
  - by rewrite flatten_record_all, leaves_hollow.
  - unfold flatten_json. rewrite !flatten_record_all.
    by rewrite leaves_plug_hollow.
Qed.

Lemma flatten_empty_groups_vanish_witness :
  hollow (Dict [("e", Dict ([] : list (string * node Z)))]) = true
  ∧ flatten true (Dict [("e", Dict [])]) "p_" [("q", 1%Z)] = Ok [("q", 1%Z)]
  ∧ flatten_json
      (Dict [("a", Dict [("b", Leaf 1%Z); ("d", Dict [("e", Dict [])])])]) true
    = flatten_json (Dict [("a", Dict [("b", Leaf 1%Z)])]) true.
Proof.
  split; [reflexivity|].
  apply (flatten_empty_groups_vanish true (Dict [("e", Dict [])]) "p_"
           [("q", 1%Z)] (InDict [] "a" Hole []) [("b", Leaf 1%Z)] [] "d").
  reflexivity.
Defined.

(** ** The loader *)

Section loader_facts.
Implicit Types (items members cs : list (string * h5item)).
Implicit Types (ans : pydict pyobj) (path : list string).

(** Induction on stores with the hypothesis for every member of a group. *)
Lemma h5item_ind' (P : h5item → Prop) :
  (∀ v, P (Dataset v)) →
  (∀ attrs members, Forall (λ kv, P kv.2) members → P (Group attrs members)) →
  P Datatype →
  ∀ item, P item.
Proof.
  intros Hdata Hgroup Htype. fix IH 1.
  intros [v|attrs members|]; [apply Hdata| |apply Htype].
  apply Hgroup. induction members as [|[k c] members IHmembers]; constructor.
  - apply IH.
  - apply IHmembers.
Qed.

Lemma load_item_Group attrs members :
  load_item (Group attrs members) = load_members members [].
Proof.
  cbn [load_item]. generalize ([] : pydict pyobj).
  induction members as [|[key [v|gattrs cs|]] members IH]; intros ans; [done|..].
  - cbn [load_members]. destruct (dataset_value v) as [v'|e]; [apply IH | done].
  - cbn [load_members]. destruct (attrs_get gattrs "_iterable" false).
    + destruct (read_elements cs _) as [l|e]; [apply IH | done].
    + destruct (load_item (Group gattrs cs)) as [d|e]; [apply IH | done].
  - cbn [load_members]. apply IH.
Qed.

(** The loop with recursive calls that return what [load_item] returns is
    the loop of [load_item]. *)
Lemma load_items_members rec items ans :
  (∀ key attrs cs,
     (key, Group attrs cs) ∈ items → iterable attrs = false →
     rec key = Some (load_item (Group attrs cs))) →
  load_items rec items ans = Some (load_members items ans).
Proof.
  revert ans. induction items as [|[key [v|attrs cs|]] items IH];
    intros ans Hrec; [done|..].
  - cbn [load_items load_members].
    destruct (dataset_value v) as [v'|e]; [|done].
    apply IH. intros ??? Hin. apply Hrec. by right.
  - cbn [load_items load_members].
    destruct (attrs_get attrs "_iterable" false) eqn:Hmark.
    + destruct (read_elements cs _) as [l|e]; [|done].
      apply IH. intros ??? Hin. apply Hrec. by right.
    + rewrite (Hrec key attrs cs) by (done || left).
      destruct (load_item (Group attrs cs)) as [d|e]; [|done].
      apply IH. intros ??? Hin. apply Hrec. by right.
  - cbn [load_items load_members].
    apply IH. intros ??? Hin. apply Hrec. by right.
Qed.

Lemma h5_getitem_app h5file path path' item :
  h5_getitem h5file path = Ok item →
  h5_getitem h5file (path ++ path') = h5_getitem item path'.
Proof.
  revert h5file. induction path as [|k path IH]; intros h5file.
  - intros [= ->]. done.
  - destruct h5file as [v|attrs members|]; [done| |done].
    cbn [h5_getitem app].
    destruct (member members k) as [it|e]; [apply IH | done].
Qed.

Lemma depth_member attrs members key item :
  (key, item) ∈ members → (S (depth item) ≤ depth (Group attrs members))%nat.
Proof.
  cbn [depth]. intros Hin. apply le_n_S.
  induction members as [|[k' it'] members IH]; [by apply elem_of_nil in Hin|].
  cbn [max_list_with snd].
  apply elem_of_cons in Hin as [[= <- <-]|Hin]; [lia|].
  specialize (IH Hin). lia.
Qed.

Lemma wf_member attrs members key item :
  wf (Group attrs members) = true → (key, item) ∈ members → wf item = true.
Proof.
  cbn [wf]. intros [_ Hall]%andb_true_iff Hin.
  rewrite forallb_forall in Hall. apply (Hall (key, item)).
  by apply list_elem_of_In.
Qed.

Lemma wf_NoDup attrs members :
  wf (Group attrs members) = true → NoDup members.*1.
Proof.
  cbn [wf]. intros [Hnd _]%andb_true_iff. by apply bool_decide_eq_true in Hnd.
Qed.

(** With fuel for the depth of the group at [path], the recursion on paths
    returns what the recursion on the store returns. *)
Lemma recursively_load_load_item fuel h5file path attrs members :
  h5_getitem h5file path = Ok (Group attrs members) →
  wf (Group attrs members) = true →
  (depth (Group attrs members) ≤ fuel)%nat →
  recursively_load_dict_contents_from_group fuel h5file path
  = Some (load_item (Group attrs members)).
Proof.
  revert path attrs members.
  induction fuel as [|fuel IH]; intros path attrs members Hget Hwf Hdepth.
  { cbn [depth] in Hdepth. lia. }
  cbn [recursively_load_dict_contents_from_group]. rewrite Hget.
  rewrite load_item_Group. apply load_items_members.
  intros key gattrs cs Hin _.
  pose proof (depth_member attrs _ _ _ Hin) as Hd.
  apply IH.
  - rewrite (h5_getitem_app _ _ _ _ Hget). cbn [h5_getitem]. unfold member.
    rewrite (dict_get_elem_of _ _ _ (wf_NoDup _ _ Hwf) Hin). done.
  - by eapply wf_member.
  - lia.
Qed.

(** The loader returns: on a store with distinct names in every group, fuel
    for the depth of the file is enough. *)
Lemma recursively_load_root fuel attrs members :
  wf (Group attrs members) = true →
  (depth (Group attrs members) ≤ fuel)%nat →
  recursively_load_dict_contents_from_group fuel (Group attrs members) []
  = Some (load_members members []).
Proof.
  intros Hwf Hdepth.
  rewrite (recursively_load_load_item fuel _ [] attrs members); [|done..].
  by rewrite load_item_Group.
Qed.
End loader_facts.

(** *** Ordered groups *)

Section ordered_group_facts.
Implicit Types (items members cs : list (string * h5item)).
Implicit Types (vs : list ndarray) (ans : pydict pyobj).





Lemma member_None cs name :
  dict_get cs name = None → member cs name = Raise (KeyError name).
Proof. unfold member. by intros ->. Qed.

Lemma member_Some cs name item :
  member cs name = Ok item → (name, item) ∈ cs.
Proof.
  unfold member. destruct (dict_get cs name) as [it|] eqn:Hget; [|done].
  intros [= <-]. by apply dict_get_Some_elem_of.
Qed.

(** An index without a member stops the reading: no list is returned. *)
Lemma read_elements_missing_raises cs s n i :
  (s ≤ i < s + n)%nat → dict_get cs (pretty i) = None →
  ∃ e, read_elements cs (seq s n) = Raise e.
Proof.
  revert s. induction n as [|n IH]; intros s Hi Hnone; [lia|].
  cbn [seq read_elements].
  destruct (member cs (pretty s)) as [child|e] eqn:Hchild; [|by exists e].
  cbn [mbind result_bind].
  destruct (read_value child) as [v|e]; [|by exists e].
  cbn [mbind result_bind].
  destruct (decide (s = i)) as [->|Hne].
  { rewrite member_None in Hchild; done. }
  destruct (IH (S s)) as [e He]; [lia | done |].
  rewrite He. by exists e.
Qed.

(** When the members are datasets, the exception is the [KeyError] of the
    first index without a member. *)
Lemma read_elements_missing cs s n i :
  Forall (λ kv, is_dataset kv.2 = true) cs →
  (s ≤ i < s + n)%nat → dict_get cs (pretty i) = None →
  ∃ j, (s ≤ j ≤ i)%nat ∧ dict_get cs (pretty j) = None
       ∧ read_elements cs (seq s n) = Raise (KeyError (pretty j)).
Proof.
  intros Hdata. rewrite Forall_forall in Hdata.
  revert s. induction n as [|n IH]; intros s Hi Hnone; [lia|].
  cbn [seq read_elements].
  destruct (dict_get cs (pretty s)) as [child|] eqn:Hget.
  - unfold member at 1. rewrite Hget. cbn [mbind result_bind].
    pose proof (Hdata _ (dict_get_Some_elem_of _ _ _ Hget)) as Hchild.
    destruct child as [v| |]; [|done..]. cbn [read_value mbind result_bind].
    destruct (decide (s = i)) as [->|Hne]; [congruence|].
    destruct (IH (S s)) as (j & Hj & Hjnone & He); [lia | done |].
    rewrite He. exists j. split; [lia | done].
  - rewrite (member_None _ _ Hget). exists s. split; [lia | done].
Qed.

Lemma read_elements_error cs indices e :
  Forall (λ kv, is_dataset kv.2 = true) cs →
  read_elements cs indices = Raise e → ∃ k, e = KeyError k.
Proof.
  intros Hdata. rewrite Forall_forall in Hdata.
  induction indices as [|i indices IH]; [done|]. cbn [read_elements].
  destruct (member cs (pretty i)) as [child|e'] eqn:Hchild.
  - apply member_Some, Hdata in Hchild.
    destruct child as [v| |]; [|done..]. cbn [read_value mbind result_bind].
    destruct (read_elements cs indices) as [vs|e']; [done|].
    intros [= <-]. by apply IH.
  - unfold member in Hchild. destruct (dict_get cs (pretty i)); [done|].
    injection Hchild as <-. intros [= <-]. by eexists.
Qed.

Lemma load_members_raises_at items k item ans :
  dict_get items k = Some item → item_raises item →
  ∃ e, load_members items ans = Raise e.
Proof.
  intros Hget Hitem. revert ans Hget.
  induction items as [|[key it] items IH]; intros ans; [done|].
  cbn [dict_get]. intros Hget.
  assert (key = k → it = item) as Hsame.
  { intros ->. rewrite decide_True in Hget by done. congruence. }
  assert (key ≠ k → ∀ ans', ∃ e, load_members items ans' = Raise e) as Hnext.
  { intros Hne ans'. rewrite decide_False in Hget by done. by apply IH. }
  destruct (decide (key = k)) as [Heq|Hne].
  - specialize (Hsame Heq) as ->. clear Hnext.
    destruct item as [v|attrs cs|]; [done| |done]. cbn [load_members].
    unfold item_raises, iterable in Hitem.
    destruct (attrs_get attrs "_iterable" false); destruct Hitem as [e He];
      rewrite He; by exists e.
  - specialize (Hnext Hne). clear Hsame.
    destruct it as [v|attrs cs|]; cbn [load_members]; [| |apply Hnext].
    + destruct (dataset_value v) as [v'|e]; [apply Hnext | by exists e].
    + destruct (attrs_get attrs "_iterable" false).
      * destruct (read_elements cs _) as [l|e]; [apply Hnext | by exists e].
      * destruct (load_item (Group attrs cs)) as [d|e];
          [apply Hnext | by exists e].
Qed.

(** A marked group the loader reaches that lacks a member for one of its
    indices makes the whole load raise. *)
Lemma visits_missing_raises path items ans attrs cs i :
  visits items path = Some (Group attrs cs) → iterable attrs = true →
  (i < length cs)%nat → dict_get cs (pretty i) = None →
  ∃ e, load_members items ans = Raise e.
Proof.
  intros Hvisit Hmark Hi Hnone. revert items ans Hvisit.
  induction path as [|k path IH]; intros items ans; [done|].
  cbn [visits]. destruct (dict_get items k) as [item|] eqn:Hget; [|done].
  intros Hvisit. apply (load_members_raises_at items k item ans Hget).
  destruct path as [|k' path].
  - injection Hvisit as ->. unfold item_raises. rewrite Hmark.
    by apply (read_elements_missing_raises cs 0 (length cs) i); [lia|].
  - destruct item as [v|gattrs gcs|]; [done| |done]. unfold item_raises.
    destruct (iterable gattrs); [done|].
    rewrite load_item_Group. by apply IH.
Qed.

Lemma dataset_value_Ok v v' : dataset_value v = Ok v' → v' = exposed v.
Proof.
  unfold dataset_value, exposed, astype_str.
  destruct (decide (dtype_char v = "S"%char)); [|by intros [= <-]].
  destruct (forallb elem_decodes (data v)); [by intros [= <-] | done].
Qed.

Lemma dataset_value_decodable v :
  decodable (Dataset v) = true → dataset_value v = Ok (exposed v).
Proof.
  unfold dataset_value, exposed, astype_str. cbn [decodable].
  destruct (decide (dtype_char v = "S"%char)); [|done]. by intros ->.
Qed.

(** When the elements of ordered groups are datasets and the byte strings
    the loader converts are ASCII, a [KeyError] is the only exception the
    loader raises. *)
Lemma load_members_error items ans e :
  leaf_shaped_members items = true →
  decodable_members items = true →
  load_members items ans = Raise e → ∃ k, e = KeyError k.
Proof.
  cut (∀ item, match item with
               | Group _ members =>
                   leaf_shaped_members members = true →
                   decodable_members members = true →
                   ∀ ans e, load_members members ans = Raise e →
                            ∃ k, e = KeyError k
               | _ => True
               end).
  { intros Hcut Hshape Hdec Hraise.
    by apply (Hcut (Group [] items) Hshape Hdec ans e). }
  clear. induction item as [v|attrs members IH|] using h5item_ind';
    [done| |done].
  clear attrs. induction IH as [|[key it] members Hit _ IHmembers];
    intros Hshape Hdec ans e; [done|].
  unfold leaf_shaped_members in Hshape. cbn [forallb snd] in Hshape.
  apply andb_true_iff in Hshape as [Hshape_it Hshape].
  unfold decodable_members in Hdec. cbn [forallb snd] in Hdec.
  apply andb_true_iff in Hdec as [Hdec_it Hdec].
  destruct it as [v|attrs cs|]; cbn [load_members];
    [| |by apply IHmembers].
  { rewrite (dataset_value_decodable v Hdec_it). by apply IHmembers. }
  cbn [leaf_shaped decodable snd] in Hshape_it, Hdec_it, Hit.
  unfold iterable in Hshape_it, Hdec_it.
  destruct (attrs_get attrs "_iterable" false).
  - destruct (read_elements cs _) as [l|e'] eqn:Hread;
      [by apply IHmembers|].
    intros [= <-].
    apply (read_elements_error cs (seq 0 (length cs)) e'); [|exact Hread].
    apply Forall_forall. intros kv Hkv. rewrite forallb_forall in Hshape_it.
    by apply Hshape_it, list_elem_of_In.
  - rewrite load_item_Group.
    destruct (load_members cs []) as [d|e'] eqn:Hload;
      [by apply IHmembers|].
    intros [= <-]. by apply (Hit Hshape_it Hdec_it [] e').
Qed.
End ordered_group_facts.


(** The example of the specification: with ["2"] deleted from the group of
    ["0"] to ["4"], the load raises the [KeyError] of ["2"]. *)
Example missing_index_example :
  let a (i : nat) := Dataset (NdArray "d" [] [Num (Z.of_nat i)]) in
  recursively_load_dict_contents_from_group 2
    (Group [] [("g", Group [("_iterable", true)]
                       [("0", a 0); ("1", a 1); ("3", a 3); ("4", a 4)])]) []
  = Some (Raise (KeyError "2")).
Proof. reflexivity. Qed.

(** *** Text *)

(** C2 at the failing input: a dataset of byte strings that is an element of
    a marked group is put in the loaded list with its raw value, not with
    the text the loader exposes for such a dataset elsewhere. *)
Theorem ordered_group_bytes_not_decoded :
  let v := NdArray "S" [2] [Bytes "ab"; Bytes "cd"] in
  recursively_load_dict_contents_from_group 2
    (Group [] [("names", Dataset v);
               ("g", Group [("_iterable", true)] [("0", Dataset v)])]) []
  = Some (Ok [("names", PArr (NdArray "U" [2] [Text "ab"; Text "cd"]));
              ("g", PList [v])])
  ∧ exposed v = NdArray "U" [2] [Text "ab"; Text "cd"]
  ∧ exposed v ≠ v.
Proof. split; [reflexivity|]. split; [reflexivity | discriminate]. Qed.

(** *** The file handle *)

(** C9: when the file can be opened, the call reads through a new handle
    while it is open and leaves it closed, whether the traversal returned,
    raised or did not finish; the handles that were open before are as they
    were.  When the file cannot be opened no handle is acquired. *)
Theorem load_closes_file (fuel : nat) (fs : pydict h5item) (filename : string)
    (w : world) :
  match dict_get fs filename with
  | None =>
      load_dict_from_hdf5 fuel fs filename w
      = (Some (Raise (OSError filename)), w)
  | Some root =>
      ∃ w',
        load_dict_from_hdf5 fuel fs filename w
        = (recursively_load_dict_contents_from_group fuel root [], w')
        ∧ (next_id w ∉ opened w')
        ∧ (∀ id, id ≠ next_id w → (id ∈ opened w' ↔ id ∈ opened w))
        ∧ trace w' = trace w ++ [EvOpen (next_id w); EvRead (next_id w);
                                 EvClose (next_id w)]
  end.
Proof.
  unfold load_dict_from_hdf5, h5py_File.
  destruct (dict_get fs filename) as [root|]; [|done].
  unfold h5_read. cbn [hid contents opened next_id trace].
  rewrite decide_True by left. eexists. split; [done|].
  unfold h5_close. cbn [hid opened next_id trace]. split; [|split].
  - intros [Hne _]%list_elem_of_filter. by apply Hne.
  - intros id Hid. rewrite list_elem_of_filter, elem_of_cons.
    split; [by intros [_ [?|?]] | intros ?; split; [done | by right]].
  - by rewrite <-!app_assoc.
Qed.

(** ** Flattening and re-nesting *)

Lemma str_split_plain k : contains "_" k = false → str_split "_" k = [k].
Proof.
  induction k as [|c k IH]; [done|]. cbn [contains str_split].
  intros [Hc Hk]%orb_false_iff. apply bool_decide_eq_false in Hc.
  rewrite decide_False by done. by rewrite IH.
Qed.

Lemma str_split_app k s :
  contains "_" k = false →
  str_split "_" (k +:+ "_" +:+ s) = k :: str_split "_" s.
Proof.
  induction k as [|c k IH]; [done|].
  change (String c k +:+ "_" +:+ s) with (String c (k +:+ "_" +:+ s)).
  cbn [contains str_split].
  intros [Hc Hk]%orb_false_iff. apply bool_decide_eq_false in Hc.
  rewrite decide_False by done. by rewrite IH.
Qed.

Lemma joined_nonempty k path : joined (k :: path) ≠ "".
Proof. cbn [joined]. by apply append_nonempty_r. Qed.

(** Splitting the key of a leaf gives back its path, when no name on the
    path has the separator in it. *)
Lemma str_split_joined path :
  path ≠ [] → Forall (λ k, contains "_" k = false) path →
  str_split "_" (drop_last (joined path)) = path.
Proof.
  induction path as [|k path IH]; [done|]. intros _ [Hk Hpath]%Forall_cons.
  destruct path as [|k' path].
  - cbn [joined]. change ("_" +:+ "") with "_".
    rewrite drop_last_key. by apply str_split_plain.
  - remember (k' :: path) as path' eqn:Hpath'.
    assert (joined path' ≠ "") as Hne by (subst; apply joined_nonempty).
    cbn [joined].
    rewrite drop_last_app by by apply append_nonempty_r.
    change ("_" +:+ joined path') with (String "_" (joined path')).
    rewrite drop_last_cons by done.
    change (k +:+ String "_" (drop_last (joined path')))
      with (k +:+ "_" +:+ drop_last (joined path')).
    rewrite str_split_app by done. rewrite IH; [done| by subst |done].
Qed.

Section round_trip.
Context {V : Type}.
Implicit Types (x : node V) (items acc : list (string * node V)).
Implicit Types (p : list string) (ps : list (list string * V)).

Lemma leaves_Dict keep name items :
  leaves keep name (Dict items)
  = flat_map
      (λ kv, leaves keep ((if keep then name else "") +:+ kv.1 +:+ "_") kv.2)
      items.
Proof. done. Qed.

Lemma paths_Dict items :
  paths (Dict items)
  = flat_map (λ kv, (λ pv, (kv.1 :: pv.1, pv.2)) <$> paths kv.2) items.
Proof. done. Qed.

(** With joined names the key of a leaf is the names on its path, joined. *)
Lemma leaves_paths name x :
  leaves true name x
  = (λ pv, (drop_last (name +:+ joined pv.1), pv.2)) <$> paths x.
Proof.
  revert name. induction x as [v|items IH] using node_ind'; intros name.
  - cbn [leaves paths fmap list_fmap joined fst snd].
    by rewrite append_empty_r.
  - rewrite leaves_Dict, paths_Dict.
    induction IH as [|[k c] items Hc _ IHitems]; [done|].
    cbn [flat_map fst snd]. rewrite fmap_app, IHitems, Hc. f_equal.
    rewrite <-list_fmap_compose. apply list_fmap_ext. intros _ [p v] _.
    cbn [compose fst snd joined]. by rewrite !append_assoc.
Qed.

Lemma plain_Dict items :
  plain (Dict items) = true → items ≠ [] ∧ plain_root items = true.
Proof.
  cbn [plain]. unfold plain_root.
  intros [[Hne%negb_true_iff%bool_decide_eq_false Hnd]%andb_true_iff Hall]
    %andb_true_iff.
  split; [done|]. by rewrite Hnd, Hall.
Qed.

Lemma plain_root_cons k c items :
  plain_root ((k, c) :: items) = true →
  (k ∉ items.*1) ∧ contains "_" k = false ∧ plain c = true
  ∧ plain_root items = true.
Proof.
  unfold plain_root. cbn [forallb fst snd].
  intros [Hnd%bool_decide_eq_true
            [[Hk%negb_true_iff Hc]%andb_true_iff Hall]%andb_true_iff]
    %andb_true_iff.
  rewrite fmap_cons in Hnd. apply NoDup_cons in Hnd as [Hfresh Hnd].
  repeat split; try done. rewrite Hall. by rewrite bool_decide_eq_true_2.
Qed.

Lemma paths_nonempty x : plain x = true → paths x ≠ [].
Proof.
  induction x as [v|items IH] using node_ind'; [done|].
  intros [Hne Hroot]%plain_Dict.
  destruct items as [|[k c] items]; [done|].
  apply Forall_cons in IH as [Hc _].
  apply plain_root_cons in Hroot as (_ & _ & Hplain & _).
  specialize (Hc Hplain). cbn [snd] in Hc.
  rewrite paths_Dict. cbn [flat_map fst snd].
  destruct (paths c) as [|pv ps]; [done|]. by rewrite fmap_cons.
Qed.
End round_trip.

Section renest_facts.
Context {V : Type}.
Implicit Types (x c : node V) (items acc sub : list (string * node V)).
Implicit Types (p : list string) (ps : list (list string * V)).

(** Induction on the items of a group, with the hypothesis for the items
    of a first item that is itself a group. *)
Lemma items_ind (Q : list (string * node V) → Prop) :
  Q [] →
  (∀ k c items,
     match c with Leaf _ => True | Dict sub => Q sub end →
     Q items → Q ((k, c) :: items)) →
  ∀ items, Q items.
Proof.
  intros Hnil Hcons.
  cut (∀ x, match x with Leaf _ => True | Dict items => Q items end).
  { intros Hcut items. apply (Hcut (Dict items)). }
  induction x as [v|items IH] using node_ind'; [done|].
  induction IH as [|[k c] items Hc _ IHitems]; [done|].
  by apply Hcons.
Qed.

Lemma paths_cons k c items :
  paths (Dict ((k, c) :: items))
  = ((λ pv, (k :: pv.1, pv.2)) <$> paths c) ++ paths (Dict items).
Proof. done. Qed.

Lemma paths_head items pv :
  pv ∈ paths (Dict items) → ∃ k p, pv.1 = k :: p ∧ k ∈ items.*1.
Proof.
  induction items as [|[k c] items IH]; [by intros ?%elem_of_nil|].
  rewrite paths_cons, elem_of_app, list_elem_of_fmap.
  intros [(pv' & -> & _)|Hin].
  - exists k, pv'.1. split; [done | left].
  - destruct (IH Hin) as (k' & p & Hp & Hk'). exists k', p.
    split; [done | by right].
Qed.

(** The paths of a plain tree are free of the separator. *)
Lemma paths_plain items :
  plain_root items = true →
  Forall (λ pv, pv.1 ≠ [] ∧ Forall (λ k, contains "_" k = false) pv.1)
    (paths (Dict items)).
Proof.
  induction items as [|k c items Hc IH] using items_ind; [constructor|].
  intros (_ & Hk & Hplain & Hroot)%plain_root_cons.
  rewrite paths_cons. apply Forall_app. split; [|by apply IH].
  apply Forall_fmap, Forall_forall. intros pv Hpv. cbn [fst snd compose].
  split; [done|]. apply Forall_cons. split; [done|].
  destruct c as [v|sub].
  - apply list_elem_of_singleton in Hpv as ->. constructor.
  - apply plain_Dict in Hplain as [_ Hsub]. specialize (Hc Hsub).
    rewrite Forall_forall in Hc. by apply Hc.
Qed.

(** No two leaves of a plain tree have the same path. *)
Lemma paths_NoDup items :
  plain_root items = true → NoDup (paths (Dict items)).*1.
Proof.
  induction items as [|k c items Hc IH] using items_ind; [constructor|].
  intros (Hfresh & _ & Hplain & Hroot)%plain_root_cons.
  rewrite paths_cons, fmap_app. apply NoDup_app. split; [|split].
  - rewrite <-list_fmap_compose.
    rewrite (list_fmap_ext _ ((k ::.) ∘ fst) (paths c)) by done.
    rewrite list_fmap_compose. apply (NoDup_fmap_2 _).
    destruct c as [v|sub].
    + apply NoDup_singleton.
    + apply Hc. by apply plain_Dict in Hplain as [_ ?].
  - intros p Hp1 Hp2.
    apply list_elem_of_fmap in Hp1 as [pv1 [-> Hin1]].
    apply list_elem_of_fmap in Hin1 as [pv0 [-> _]].
    apply list_elem_of_fmap in Hp2 as [pw [Heq Hin2]].
    destruct (paths_head _ _ Hin2) as (k' & p' & Hp' & Hk').
    cbn [fst] in Heq. rewrite Hp' in Heq. by simplify_eq.
  - by apply IH.
Qed.

Lemma dict_set_app_fresh {A} (d : list (string * A)) k a b :
  k ∉ d.*1 → dict_set (d ++ [(k, a)]) k b = d ++ [(k, b)].
Proof.
  induction d as [|[k' a'] d IH]; cbn [dict_set app].
  - intros _. by rewrite decide_True.
  - rewrite fmap_cons, not_elem_of_cons. intros [Hne Hd].
    rewrite decide_False by done. by rewrite IH.
Qed.

Lemma insert_paths_cons pv ps items :
  insert_paths (pv :: ps) items = insert_paths ps (insert_path pv.1 pv.2 items).
Proof. done. Qed.

Lemma insert_paths_app ps1 ps2 items :
  insert_paths (ps1 ++ ps2) items = insert_paths ps2 (insert_paths ps1 items).
Proof. apply foldl_app. Qed.

(** Inserting the leaves of one subtree, each path under the name [k],
    into items that have no [k] yet adds the one item [k] with that
    subtree re-nested. *)
Lemma insert_paths_under k ps acc :
  k ∉ acc.*1 → ps ≠ [] → Forall (λ pv, pv.1 ≠ []) ps →
  insert_paths ((λ pv, (k :: pv.1, pv.2)) <$> ps) acc
  = acc ++ [(k, Dict (insert_paths ps []))].
Proof.
  intros Hfresh Hne Hps.
  assert (∀ ps d, Forall (λ pv, pv.1 ≠ []) ps →
            insert_paths ((λ pv, (k :: pv.1, pv.2)) <$> ps)
              (acc ++ [(k, Dict d)])
            = acc ++ [(k, Dict (insert_paths ps d))]) as Hrest.
  { clear ps Hne Hps. intros ps.
    induction ps as [|[p v] ps IH]; intros d Hps; [done|].
    apply Forall_cons in Hps as [Hp Hps]. cbn [fst] in Hp.
    rewrite fmap_cons, !insert_paths_cons. cbn [fst snd].
    destruct p as [|k' p]; [done|]. cbn [insert_path].
    rewrite dict_get_app_fresh, dict_set_app_fresh by done.
    by apply IH. }
  destruct ps as [|[p v] ps]; [done|].
  apply Forall_cons in Hps as [Hp Hps]. cbn [fst] in Hp.
  rewrite fmap_cons, !insert_paths_cons. cbn [fst snd].
  destruct p as [|k' p]; [done|]. cbn [insert_path].
  apply dict_get_None in Hfresh as Hget. rewrite Hget.
  rewrite dict_set_fresh by done.
  by rewrite (Hrest ps _ Hps).
Qed.

(** Inserting the leaves of a plain tree, in the order of the traversal,
    rebuilds its items in their order. *)
Lemma insert_paths_plain items :
  plain_root items = true →
  ∀ acc, (∀ k, k ∈ items.*1 → k ∉ acc.*1) →
         insert_paths (paths (Dict items)) acc = acc ++ items.
Proof.
  induction items as [|k c items Hc IH] using items_ind; intros Hroot acc Hacc.
  { by rewrite app_nil_r. }
  apply plain_root_cons in Hroot as (Hfresh & Hk & Hplain & Hroot).
  rewrite paths_cons, insert_paths_app.
  assert (k ∉ acc.*1) as Hkacc by (apply Hacc; left).
  assert (insert_paths ((λ pv, (k :: pv.1, pv.2)) <$> paths c) acc
          = acc ++ [(k, c)]) as ->.
  { destruct c as [v|sub].
    - cbn [paths]. rewrite list_fmap_singleton, insert_paths_cons.
      cbn [fst snd insert_path insert_paths foldl]. by apply dict_set_fresh.
    - rewrite insert_paths_under; [|done|by apply paths_nonempty|].
      + apply plain_Dict in Hplain as [_ Hsub].
        rewrite (Hc Hsub []); [done|]. intros ? _. apply not_elem_of_nil.
      + apply Forall_forall. intros pv Hpv.
        destruct (paths_head _ _ Hpv) as (k' & p & -> & _). done. }
  rewrite IH; [by rewrite <-app_assoc | done |].
  intros k' Hk'. rewrite fmap_app, elem_of_app.
  intros [Hin| ->%list_elem_of_singleton]; [|done].
  apply (Hacc k'); [by right | done].
Qed.

Lemma foldl_ext_in {A B} (f g : A → B → A) (l : list B) (a : A) :
  (∀ a b, b ∈ l → f a b = g a b) → foldl f a l = foldl g a l.
Proof.
  revert a. induction l as [|b l IH]; intros a Hfg; [done|].
  cbn [foldl]. rewrite Hfg by left. apply IH.
  intros ???. apply Hfg. by right.
Qed.

Lemma leaves_plain items :
  leaves true "" (Dict items)
  = (λ pv, (drop_last (joined pv.1), pv.2)) <$> paths (Dict items).
Proof. by rewrite leaves_paths. Qed.

(** The computed keys of a plain tree are pairwise distinct. *)
Lemma leaves_plain_NoDup items :
  plain_root items = true → NoDup (leaves true "" (Dict items)).*1.
Proof.
  intros Hroot. rewrite leaves_plain, <-list_fmap_compose.
  rewrite (list_fmap_ext _ ((λ p, drop_last (joined p)) ∘ fst)
             (paths (Dict items))) by done.
  rewrite list_fmap_compose.
  apply NoDup_fmap_2_strong; [|by apply paths_NoDup].
  pose proof (paths_plain items Hroot) as Hplain.
  rewrite Forall_forall in Hplain.
  intros p q [pv [-> Hpv]]%list_elem_of_fmap [qv [-> Hqv]]%list_elem_of_fmap.
  destruct (Hplain _ Hpv) as [Hp1 Hp2], (Hplain _ Hqv) as [Hq1 Hq2].
  intros Heq. apply (f_equal (str_split "_")) in Heq.
  by rewrite !str_split_joined in Heq.
Qed.

Lemma renest_leaves_plain items :
  plain_root items = true → renest (leaves true "" (Dict items)) = Dict items.
Proof.
  intros Hroot. unfold renest. f_equal. rewrite leaves_plain, foldl_fmap.
  cbn [fst snd].
  rewrite (foldl_ext_in _ (λ items pv, insert_path pv.1 pv.2 items)).
  - fold (insert_paths (paths (Dict items)) []).
    rewrite insert_paths_plain; [done | done |].
    intros ? _. apply not_elem_of_nil.
  - pose proof (paths_plain items Hroot) as Hplain.
    rewrite Forall_forall in Hplain.
    intros a pv [Hp1 Hp2]%Hplain. by rewrite str_split_joined.
Qed.
End renest_facts.

(** C5, as the specification words it, does not hold: the tree
    [{"a_b": 1}] has unique full-path names, but flattening it and
    re-nesting the result gives [{a: {b: 1}}], which does not have the leaf
    at the path of the original. *)
Lemma round_trip_fails_on_separator_in_name :
  let t := Dict [("a_b", Leaf 1%Z)] in
  NoDup (paths t).*1
  ∧ flatten_json t true = Ok [("a_b", 1%Z)]
  ∧ renest [("a_b", 1%Z)] = Dict [("a", Dict [("b", Leaf 1%Z)])]
  ∧ ¬ same_leaves (renest [("a_b", 1%Z)]) t.
Proof.
  intros t. split; [apply NoDup_singleton|]. split; [reflexivity|].
  split; [reflexivity|]. intros Hsame.
  destruct (Hsame ["a_b"] 1%Z) as [_ Hback].
  assert ((["a_b"], 1%Z) ∈ paths t) as Hin by left.
  apply Hback in Hin. vm_compute in Hin.
  by apply list_elem_of_singleton in Hin.
Qed.

Section prune_facts.
Context {V : Type}.
Implicit Types (x c : node V) (items : list (string * node V)).

Lemma paths_app items1 items2 :
  paths (Dict (items1 ++ items2))
  = paths (Dict items1) ++ paths (Dict items2).
Proof. rewrite !paths_Dict. apply flat_map_app. Qed.

Lemma prune_cons k c items :
  prune (Dict ((k, c) :: items))
  = Dict (match prune c with Dict [] => [] | c' => [(k, c')] end
          ++ match prune (Dict items) with Dict items' => items' | _ => [] end).
Proof. done. Qed.

Lemma prune_Dict items : ∃ items', prune (Dict items) = Dict items'.
Proof. by eexists. Qed.

(** Pruning keeps the leaves and their paths. *)
Lemma paths_prune x : paths (prune x) = paths x.
Proof.
  induction x as [v|items IH] using node_ind'; [done|].
  induction IH as [|[k c] items Hc _ IHitems]; [done|].
  rewrite prune_cons, paths_app, paths_cons. cbn [snd] in Hc.
  destruct (prune_Dict items) as [items' Hitems']. rewrite Hitems' in *.
  rewrite IHitems. f_equal. rewrite <-Hc.
  destruct (prune c) as [v|[|kc sub]]; [| done |].
  - rewrite paths_cons. apply app_nil_r.
  - rewrite paths_cons. apply app_nil_r.
Qed.

Lemma prune_names items items' k :
  prune (Dict items) = Dict items' → k ∈ items'.*1 → k ∈ items.*1.
Proof.
  revert items'. induction items as [|[k0 c] items IH]; intros items'.
  { intros [= <-]. done. }
  rewrite prune_cons. destruct (prune_Dict items) as [items0 Hitems0].
  rewrite Hitems0. intros [= <-]. rewrite fmap_app, elem_of_app.
  intros [Hin|Hin]; [|right; by apply (IH items0)].
  destruct (prune c) as [v|[|kc sub]].
  - apply list_elem_of_singleton in Hin as ->. left.
  - by apply elem_of_nil in Hin.
  - apply list_elem_of_singleton in Hin as ->. left.
Qed.

Lemma plain_root_cons_2 k c items :
  (k ∉ items.*1) → contains "_" k = false → plain c = true →
  plain_root items = true → plain_root ((k, c) :: items) = true.
Proof.
  unfold plain_root. cbn [forallb fst snd].
  intros Hfresh Hk Hc [Hnd Hall]%andb_true_iff.
  apply bool_decide_eq_true in Hnd.
  rewrite Hk, Hc, Hall. cbn [negb andb]. rewrite andb_true_r.
  apply bool_decide_eq_true. rewrite fmap_cons. by apply NoDup_cons.
Qed.

(** A tidy tree, pruned, is plain. *)
Lemma plain_prune items items' :
  tidy (Dict items) = true → prune (Dict items) = Dict items' →
  plain_root items' = true.
Proof.
  revert items'.
  induction items as [|k c items Hc IH] using items_ind; intros items'.
  { by intros _ [= <-]. }
  cbn [tidy forallb fst snd]. rewrite fmap_cons.
  intros [[Hfresh Hnd]%bool_decide_eq_true%NoDup_cons
            [[Hk%negb_true_iff Htidy]%andb_true_iff Hall]%andb_true_iff]
    %andb_true_iff.
  assert (tidy (Dict items) = true) as Hitems.
  { cbn [tidy]. rewrite Hall. by rewrite bool_decide_eq_true_2. }
  rewrite prune_cons. destruct (prune_Dict items) as [items0 Hitems0].
  rewrite Hitems0. intros [= <-]. specialize (IH items0 Hitems Hitems0).
  assert (k ∉ items0.*1) as Hfresh0.
  { intros Hin. by apply Hfresh, (prune_names items items0). }
  destruct c as [v|sub].
  - by apply plain_root_cons_2.
  - destruct (prune_Dict sub) as [sub0 Hsub0]. rewrite Hsub0.
    specialize (Hc sub0 Htidy Hsub0). destruct sub0 as [|kc sub0]; [done|].
    by apply plain_root_cons_2.
Qed.
End prune_facts.

(** C5, amended: for a tree whose root is a group and in which the names
    within every group are pairwise distinct and free of the separator
    ['_'], flattening with joined names succeeds, and re-nesting the result
    by splitting each key on ['_'] gives a tree with the same leaf values at
    the same paths; it gives back the tree itself when no group below the
    root is empty. *)
Theorem flatten_renest_round_trip {V} (items : list (string * node V)) :
  tidy (Dict items) = true →
  ∃ flat : pydict V,
    flatten_json (Dict items) true = Ok flat
    ∧ same_leaves (renest flat) (Dict items)
    ∧ (plain_root items = true → renest flat = Dict items).
Proof.
  intros Htidy. exists (leaves true "" (Dict items)).
  destruct (prune_Dict items) as [items' Hprune].
  pose proof (plain_prune _ _ Htidy Hprune) as Hplain.
  assert (leaves true "" (Dict items) = leaves true "" (Dict items')) as Hleaves.
  { by rewrite !leaves_paths, <-Hprune, paths_prune. }
  split; [|split].
  - apply flatten_no_collision. rewrite Hleaves. by apply leaves_plain_NoDup.
  - rewrite Hleaves, renest_leaves_plain by done.
    intros p v. by rewrite <-Hprune, paths_prune.
  - apply renest_leaves_plain.
Qed.

Lemma flatten_renest_round_trip_witness :
  let items := [("model", Dict [("core", Dict [("layers", Leaf 3%Z);
                                                ("", Leaf 4%Z)]);
                                ("extra", Dict []);
                                ("readout", Leaf 5%Z)]);
                ("seed", Leaf 7%Z)] in
  tidy (Dict items) = true
  ∧ ∃ flat : pydict Z,
      flatten_json (Dict items) true = Ok flat
      ∧ same_leaves (renest flat) (Dict items)
      ∧ (plain_root items = true → renest flat = Dict items).
Proof.
  intros items. split; [reflexivity|].
  apply (flatten_renest_round_trip items). reflexivity.
Defined.

(** *** What a successful load exposes for datasets *)

Section exposed_facts.
Implicit Types (items members cs : list (string * h5item)).
Implicit Types (ans : pydict pyobj) (path : list string).

Lemma dict_get_dict_set {A} (d : list (string * A)) k k' a :
  dict_get (dict_set d k a) k'
  = if decide (k = k') then Some a else dict_get d k'.
Proof.
  induction d as [|[k0 a0] d IH]; cbn [dict_set dict_get].
  - by destruct (decide (k = k')).
  - destruct (decide (k0 = k)) as [->|Hne]; cbn [dict_get].
    + by destruct (decide (k = k')).
    + rewrite IH. destruct (decide (k0 = k')) as [->|]; [|done].
      by rewrite decide_False.
Qed.

Lemma load_members_get items ans ans' :
  NoDup items.*1 → load_members items ans = Ok ans' →
  (∀ k, k ∉ items.*1 → dict_get ans' k = dict_get ans k)
  ∧ (∀ k item, (k, item) ∈ items → is_datatype item = false →
               ∃ o, dict_get ans' k = Some o ∧ stored item o).
Proof.
  revert ans. induction items as [|[key it] items IH]; intros ans Hnd Hload.
  { injection Hload as <-. split; [done | by intros ?? ?%elem_of_nil]. }
  rewrite fmap_cons in Hnd. apply NoDup_cons in Hnd as [Hkey Hnd].
  assert (∀ o, load_members items (dict_set ans key o) = Ok ans' →
               stored it o →
               (∀ k, k ∉ (key, it).1 :: items.*1 →
                     dict_get ans' k = dict_get ans k)
               ∧ (∀ k item, (k, item) ∈ (key, it) :: items →
                            is_datatype item = false →
                            ∃ o, dict_get ans' k = Some o ∧ stored item o))
    as Hstep.
  { intros o Hrest Ho. destruct (IH _ Hnd Hrest) as [Hout Hin]. split.
    - intros k [Hne Hk]%not_elem_of_cons.
      rewrite (Hout k Hk), dict_get_dict_set. by rewrite decide_False.
    - intros k item [[= -> ->]|Hitem]%elem_of_cons; [|by apply Hin].
      intros _. exists o. split; [|done].
      rewrite (Hout key Hkey), dict_get_dict_set. by rewrite decide_True. }
  rewrite fmap_cons.
  destruct it as [v|attrs cs|]; cbn [load_members] in Hload.
  - destruct (dataset_value v) as [v'|e] eqn:Hv; [|done].
    apply dataset_value_Ok in Hv as ->. by apply (Hstep _ Hload).
  - unfold stored, iterable in Hstep.
    destruct (attrs_get attrs "_iterable" false).
    + destruct (read_elements cs _) as [l|e] eqn:Hread; [|done].
      apply (Hstep _ Hload). by exists l.
    + rewrite load_item_Group in Hload.
      destruct (load_members cs []) as [d|e] eqn:Hsub; [|done].
      apply (Hstep _ Hload). by exists d.
  - clear Hstep. destruct (IH _ Hnd Hload) as [Hout Hin]. split.
    + intros k [Hne Hk]%not_elem_of_cons. by apply Hout.
    + intros k item [[= -> ->]|Hitem]%elem_of_cons; [done | by apply Hin].
Qed.

(** In what a load returns, every dataset the loader reached outside the
    ordered groups stands at its path with text for byte strings and with
    its raw value otherwise. *)
Lemma loaded_dataset_exposed attrs members path v ans :
  wf (Group attrs members) = true →
  load_members members [] = Ok ans →
  visits members path = Some (Dataset v) →
  obj_at ans path = Some (PArr (exposed v)).
Proof.
  revert attrs members ans.
  induction path as [|k path IH]; intros attrs members ans Hwf Hload; [done|].
  cbn [visits obj_at].
  destruct (dict_get members k) as [item|] eqn:Hget; [|done].
  apply dict_get_Some_elem_of in Hget.
  destruct (load_members_get _ _ _ (wf_NoDup _ _ Hwf) Hload) as [_ Hin].
  destruct path as [|k' path].
  - intros [= ->]. destruct (Hin k _ Hget) as (o & -> & Ho); [done|].
    by rewrite Ho.
  - destruct item as [v'|gattrs gcs|]; [done| |done].
    destruct (Hin k _ Hget) as (o & -> & Ho); [done|]. unfold stored in Ho.
    destruct (iterable gattrs); [done|]. destruct Ho as (d & Hd & ->).
    apply (IH gattrs gcs d); [by eapply wf_member | done].
Qed.

Lemma exposed_bytes v :
  dtype_char v = "S"%char →
  exposed v = NdArray "U" (shape v) (elem_str <$> data v).
Proof. intros Hv. unfold exposed. by rewrite decide_True. Qed.

Lemma exposed_other v : dtype_char v ≠ "S"%char → exposed v = v.
Proof. intros Hv. unfold exposed. by rewrite decide_False. Qed.
End exposed_facts.

(** * Further properties of [flatten_json] *)

Section flatten_more.
Context {V : Type}.
Implicit Types (x y : node V) (items : list (string * node V)).
Implicit Types (flat : pydict V) (name : string) (keep : bool).

Lemma leaves_length keep name x :
  length (leaves keep name x) = length (paths x).
Proof.
  revert name. induction x as [v|items IH] using node_ind'; intros name; [done|].
  rewrite leaves_Dict, paths_Dict.
  induction IH as [|[k c] items Hc _ IHitems]; [done|].
  cbn [flat_map fst snd]. rewrite !length_app, length_fmap.
  by rewrite Hc, IHitems.
Qed.

Lemma drop_last_joined_cons k path :
  path ≠ [] →
  drop_last (joined (k :: path)) = k +:+ "_" +:+ drop_last (joined path).
Proof.
  intros Hne. destruct path as [|k' path]; [done|].
  remember (k' :: path) as path' eqn:Hpath'.
  assert (joined path' ≠ "") as Hjoined by (subst; apply joined_nonempty).
  cbn [joined]. rewrite drop_last_app by by apply append_nonempty_r.
  change ("_" +:+ joined path') with (String "_" (joined path')).
  by rewrite drop_last_cons.
Qed.

(** The joined name, cut at the leaf, is ["_".join(path)]. *)
Lemma drop_last_joined path :
  path ≠ [] → drop_last (joined path) = String.concat "_" path.
Proof.
  induction path as [|k path IH]; [done|]. intros _.
  destruct path as [|k' path].
  - cbn [joined String.concat]. change ("_" +:+ "") with "_".
    apply drop_last_key.
  - rewrite drop_last_joined_cons by done. rewrite IH by done. done.
Qed.

(** Without joined names the key of a leaf is the last name on its path. *)
Lemma leaves_last name x :
  leaves false name x
  = (λ pv, (match last pv.1 with Some k => k | None => drop_last name end,
            pv.2)) <$> paths x.
Proof.
  revert name. induction x as [v|items IH] using node_ind'; intros name;
    [done|].
  rewrite leaves_Dict, paths_Dict.
  induction IH as [|[k c] items Hc _ IHitems]; [done|].
  cbn [flat_map fst snd]. rewrite fmap_app, IHitems, Hc. f_equal.
  rewrite <-list_fmap_compose. apply list_fmap_ext. intros _ [p v] _.
  cbn [compose fst snd]. rewrite last_cons.
  destruct (last p); [done|]. f_equal. apply drop_last_key.
Qed.

Lemma dict_eq_refl x : dict_eq x x.
Proof.
  induction x as [v|items IH] using node_ind'; [constructor|].
  induction IH as [|[k c] items Hc _ IHitems]; by constructor.
Qed.

(** Trees that are equal as dictionaries have the same leaves under the
    same computed keys. *)
Lemma leaves_dict_eq keep name x y :
  dict_eq x y → leaves keep name x ≡ₚ leaves keep name y.
Proof.
  intros Heq. revert name.
  induction Heq as [v| |k c c' items items' _ IHc _ IHitems|kc kc' items
                    |x y z _ IHxy _ IHyz]; intros name.
  - done.
  - done.
  - rewrite !leaves_Dict. cbn [flat_map fst snd].
    specialize (IHitems name). rewrite !leaves_Dict in IHitems.
    by rewrite IHc, IHitems.
  - rewrite !leaves_Dict. cbn [flat_map]. rewrite !app_assoc.
    f_equiv. apply Permutation_app_comm.
  - by rewrite IHxy.
Qed.
End flatten_more.

(** X1: [flatten_json] returns a mapping exactly when the computed keys of
    the leaves are pairwise distinct, and the mapping then holds the entries
    of the leaves in the order of the traversal; the only exception it
    raises is the [ValueError] of a repeated key. *)
Theorem flatten_json_outcome {V} (x : node V) (keep : bool) :
  (∀ flat, flatten_json x keep = Ok flat
           ↔ NoDup (leaves keep "" x).*1 ∧ flat = leaves keep "" x)
  ∧ (∀ e, flatten_json x keep = Raise e
          ↔ ¬ NoDup (leaves keep "" x).*1 ∧ e = ValueError duplicate_msg).
Proof.
  rewrite flatten_json_spec. split; intros r; case_decide as Hnd.
  - split; [by intros [= <-] | by intros [_ ->]].
  - split; [done | by intros [? _]].
  - split; [done | by intros [? _]].
  - split; [by intros [= <-] | by intros [_ ->]].
Qed.

(** X2: when [flatten_json] returns for a dictionary, every leaf has one
    entry, in the order of the traversal: with joined names under
    ["_".join(path)] for the names on its path, without them under the last
    name of the path alone. *)
Theorem flatten_json_keys {V} (items : list (string * node V)) (keep : bool)
    (flat : pydict V) :
  flatten_json (Dict items) keep = Ok flat →
  flat = (λ pv, (if keep then String.concat "_" pv.1
                 else default "" (last pv.1), pv.2))
         <$> paths (Dict items).
Proof.
  intros Hflat. rewrite flatten_json_spec in Hflat.
  case_decide; [|done].
  assert (flat = leaves keep "" (Dict items)) as -> by congruence.
  clear Hflat. destruct keep.
  - rewrite leaves_paths. apply list_fmap_ext. intros _ pv Hpv%list_elem_of_lookup_2.
    destruct (paths_head _ _ Hpv) as (k & p & Hp & _).
    change ("" +:+ joined pv.1) with (joined pv.1).
    rewrite drop_last_joined; [done|]. by rewrite Hp.
  - rewrite leaves_last. apply list_fmap_ext. intros _ pv Hpv%list_elem_of_lookup_2.
    destruct (paths_head _ _ Hpv) as (k & p & Hp & _).
    rewrite Hp, last_cons. by destruct (last p).
Qed.

Lemma flatten_json_keys_witness :
  let items := [("model", Dict [("core", Dict [("layers", Leaf 3%Z)]);
                                ("gamma", Leaf 5%Z)]);
                ("seed", Leaf 7%Z)] in
  flatten_json (Dict items) false
  = Ok [("layers", 3%Z); ("gamma", 5%Z); ("seed", 7%Z)]
  ∧ [("layers", 3%Z); ("gamma", 5%Z); ("seed", 7%Z)]
    = (λ pv, (default "" (last pv.1), pv.2)) <$> paths (Dict items).
Proof.
  intros items. split; [reflexivity|].
  apply (flatten_json_keys items false). reflexivity.
Defined.

Lemma dict_get_Permutation {A} (d d' : list (string * A)) (k : string) :
  NoDup d.*1 → d ≡ₚ d' → dict_get d k = dict_get d' k.
Proof.
  intros Hnd Hperm.
  assert (NoDup d'.*1) as Hnd' by by rewrite <-Hperm.
  destruct (dict_get d k) as [a|] eqn:Hget.
  - apply dict_get_Some_elem_of in Hget. rewrite Hperm in Hget.
    symmetry. by apply dict_get_elem_of.
  - apply dict_get_None in Hget. rewrite Hperm in Hget.
    symmetry. by apply dict_get_None.
Qed.

(** X3: what [flatten_json] returns is a mapping with one entry per leaf of
    the tree: its keys are pairwise distinct, it has as many entries as the
    tree has leaves, and looking up the key of an entry gives its value. *)
Theorem flatten_json_one_entry_per_leaf {V} (x : node V) (keep : bool)
    (flat : pydict V) :
  flatten_json x keep = Ok flat →
  NoDup flat.*1
  ∧ length flat = length (paths x)
  ∧ ∀ k v, (k, v) ∈ flat → dict_get flat k = Some v.
Proof.
  intros Hflat. rewrite flatten_json_spec in Hflat.
  case_decide as Hnd; [|done].
  assert (flat = leaves keep "" x) as -> by congruence.
  split; [done|]. split; [apply leaves_length|].
  intros k v. by apply dict_get_elem_of.
Qed.

Lemma flatten_json_one_entry_per_leaf_witness :
  let x := Dict [("a", Dict [("b", Leaf 1%Z); ("c", Leaf 2%Z)]);
                 ("d", Dict [])] in
  flatten_json x true = Ok [("a_b", 1%Z); ("a_c", 2%Z)]
  ∧ length [("a_b", 1%Z); ("a_c", 2%Z)] = length (paths x).
Proof.
  intros x. split; [reflexivity|].
  apply (flatten_json_one_entry_per_leaf x true). reflexivity.
Defined.

(** X4: flattening is idempotent: the mapping [flatten_json] returns, passed
    to [flatten_json] again as a one-level dictionary, comes back unchanged
    in either naming mode. *)
Theorem flatten_json_idempotent {V} (x : node V) (keep keep' : bool)
    (flat : pydict V) :
  flatten_json x keep = Ok flat →
  flatten_json (flat_tree flat) keep' = Ok flat.
Proof.
  intros Hflat. rewrite flatten_json_spec in Hflat.
  case_decide as Hnd; [|done].
  assert (flat = leaves keep "" x) as -> by congruence.
  unfold flat_tree. rewrite flatten_json_spec, leaves_flat.
  by rewrite decide_True.
Qed.

Lemma flatten_json_idempotent_witness :
  flatten_json (Dict [("a", Dict [("b", Leaf 1%Z); ("c", Leaf 2%Z)])]) true
  = Ok [("a_b", 1%Z); ("a_c", 2%Z)]
  ∧ flatten_json (flat_tree [("a_b", 1%Z); ("a_c", 2%Z)]) false
    = Ok [("a_b", 1%Z); ("a_c", 2%Z)].
Proof.
  split; [reflexivity|].
  apply (flatten_json_idempotent
           (Dict [("a", Dict [("b", Leaf 1%Z); ("c", Leaf 2%Z)])]) true false).
  reflexivity.
Defined.

(** X5: the order of the items in the dictionaries of the input does not
    matter.  For two trees that are equal as dictionaries, [flatten_json]
    raises for both or returns for both, and the two results have the same
    entries: every key has the same value in both. *)
Theorem flatten_json_order_independent {V} (x y : node V) (keep : bool) :
  dict_eq x y →
  (∀ flat, flatten_json x keep = Ok flat →
           ∃ flat', flatten_json y keep = Ok flat'
                    ∧ flat ≡ₚ flat'
                    ∧ ∀ k, dict_get flat' k = dict_get flat k)
  ∧ (∀ e, flatten_json x keep = Raise e → flatten_json y keep = Raise e).
Proof.
  intros Heq. pose proof (leaves_dict_eq keep "" x y Heq) as Hperm.
  rewrite !flatten_json_spec. split.
  - intros flat Hflat. case_decide as Hnd; [|done].
    assert (flat = leaves keep "" x) as -> by congruence.
    exists (leaves keep "" y). rewrite decide_True by by rewrite <-Hperm.
    split; [done|]. split; [done|].
    intros k. symmetry. by apply dict_get_Permutation.
  - intros e He. case_decide as Hnd; [done|].
    rewrite decide_False; [done|]. by rewrite <-Hperm.
Qed.

Lemma flatten_json_order_independent_witness :
  let x := Dict [("a", Leaf 1%Z); ("b", Dict [("c", Leaf 2%Z)])] in
  let y := Dict [("b", Dict [("c", Leaf 2%Z)]); ("a", Leaf 1%Z)] in
  dict_eq x y
  ∧ (∀ flat, flatten_json x true = Ok flat →
             ∃ flat', flatten_json y true = Ok flat'
                      ∧ flat ≡ₚ flat'
                      ∧ ∀ k, dict_get flat' k = dict_get flat k).
Proof.
  intros x y. split; [apply dict_eq_swap|].
  apply (flatten_json_order_independent x y true). apply dict_eq_swap.
Defined.

(** * Further properties of the loader *)

Section loader_more.
Implicit Types (items members cs : list (string * h5item)).
Implicit Types (ans : pydict pyobj) (path : list string).

Lemma read_elements_ok cs indices :
  (∃ l, read_elements cs indices = Ok l)
  ↔ forallb (has_element cs) indices = true.
Proof.
  induction indices as [|i indices IH]; cbn [read_elements forallb].
  { split; [done | by eexists]. }
  rewrite andb_true_iff, <-IH. unfold has_element, member.
  destruct (dict_get cs (pretty i)) as [[v|attrs gcs|]|];
    cbn [mbind result_bind read_value].
  - destruct (read_elements cs indices) as [l|e].
    + split; [by eauto | by eexists].
    + split; [by intros [? ?] | by intros [_ [? ?]]].
  - split; [by intros [? ?] | by intros [? _]].
  - split; [by intros [? ?] | by intros [? _]].
  - split; [by intros [? ?] | by intros [? _]].
Qed.

Lemma read_elements_values cs s n l :
  read_elements cs (seq s n) = Ok l →
  length l = n
  ∧ ∀ i v, l !! i = Some v → dict_get cs (pretty (s + i)) = Some (Dataset v).
Proof.
  revert s l. induction n as [|n IH]; intros s l; cbn [seq read_elements].
  { intros [= <-]. split; [done|]. intros i v Hi. by destruct i. }
  unfold member at 1.
  destruct (dict_get cs (pretty s)) as [[v|attrs gcs|]|] eqn:Hget;
    cbn [mbind result_bind read_value]; [|done..].
  destruct (read_elements cs (seq (S s) n)) as [vs|e] eqn:Hrest; [|done].
  intros [= <-]. destruct (IH _ _ Hrest) as [Hlen Hvs].
  split; [by rewrite length_cons, Hlen|].
  intros [|i] w; cbn [lookup list_lookup].
  - intros [= <-]. by rewrite Nat.add_0_r.
  - intros Hi. rewrite <-Nat.add_succ_comm. by apply Hvs.
Qed.

Lemma dataset_value_ok v :
  (∃ v', dataset_value v = Ok v') ↔ loadable (Dataset v) = true.
Proof.
  unfold dataset_value, astype_str. cbn [loadable].
  destruct (decide (dtype_char v = "S"%char)); [|split; [done | by eexists]].
  destruct (forallb elem_decodes (data v));
    [split; [done | by eexists] | split; [by intros [? ?] | done]].
Qed.

(** The loop returns exactly for the loadable members. *)
Lemma load_members_ok items ans :
  (∃ ans', load_members items ans = Ok ans') ↔ loadable_members items = true.
Proof.
  cut (∀ item, match item with
               | Group _ members =>
                   ∀ ans, (∃ ans', load_members members ans = Ok ans')
                          ↔ loadable_members members = true
               | _ => True
               end).
  { intros Hcut. apply (Hcut (Group [] items)). }
  clear. induction item as [v|attrs members IH|] using h5item_ind';
    [done| |done].
  clear attrs. induction IH as [|[key it] members Hit _ IHmembers]; intros ans.
  { split; [done | by eexists]. }
  unfold loadable_members. cbn [forallb snd]. rewrite andb_true_iff.
  fold (loadable_members members).
  destruct it as [v|attrs cs|]; cbn [load_members].
  - rewrite <-dataset_value_ok.
    destruct (dataset_value v) as [v'|e]; cbn [mbind result_bind].
    + rewrite IHmembers. split; [by eauto | by intros [_ ?]].
    + split; [by intros [? ?] | by intros [[? ?] _]].
  - cbn [loadable]. unfold iterable. cbn [snd] in Hit.
    destruct (attrs_get attrs "_iterable" false).
    + rewrite <-read_elements_ok.
      destruct (read_elements cs _) as [l|e]; cbn [mbind result_bind].
      * rewrite IHmembers. split; [by eauto | by intros [_ ?]].
      * split; [by intros [? ?] | by intros [[? ?] _]].
    + rewrite load_item_Group. rewrite <-(Hit []).
      destruct (load_members cs []) as [d|e]; cbn [mbind result_bind].
      * rewrite IHmembers. split; [by eauto | by intros [_ ?]].
      * split; [by intros [? ?] | by intros [[? ?] _]].
  - cbn [loadable]. rewrite IHmembers. by split; [|intros [_ ?]].
Qed.

(** On a store with distinct names the loop adds the names of the members
    that are datasets or groups, in their order, to the keys of the
    dictionary. *)
Lemma load_members_keys items ans ans' :
  NoDup items.*1 → (∀ k, k ∈ items.*1 → k ∉ ans.*1) →
  load_members items ans = Ok ans' →
  ans'.*1 = ans.*1 ++ (filter (λ kv, is_datatype kv.2 = false) items).*1.
Proof.
  revert ans. induction items as [|[key it] items IH]; intros ans Hnd Hfresh.
  { intros [= <-]. by rewrite app_nil_r. }
  rewrite fmap_cons in Hnd, Hfresh. apply NoDup_cons in Hnd as [Hkey Hnd].
  assert (is_datatype it = false →
          ∀ o, load_members items (dict_set ans key o) = Ok ans' →
               ans'.*1
               = ans.*1
                 ++ (filter (λ kv, is_datatype kv.2 = false)
                       ((key, it) :: items)).*1) as Hstep.
  { intros Hit o Hrest. apply IH in Hrest; [|done|].
    - rewrite Hrest, dict_set_fresh by (apply Hfresh; left).
      rewrite filter_cons_True by done.
      rewrite fmap_app, fmap_cons. cbn [fst fmap list_fmap].
      by rewrite <-app_assoc.
    - intros k Hk. rewrite dict_set_fresh by (apply Hfresh; left).
      rewrite fmap_app, elem_of_app.
      intros [Hin| ->%list_elem_of_singleton]; [|done].
      by apply (Hfresh k); [right|]. }
  destruct it as [v|attrs cs|]; cbn [load_members].
  - destruct (dataset_value v) as [v'|e]; [by apply Hstep | done].
  - destruct (attrs_get attrs "_iterable" false).
    + destruct (read_elements cs _) as [l|e]; [by apply Hstep | done].
    + destruct (load_item (Group attrs cs)) as [d|e]; [by apply Hstep | done].
  - intros Hload. rewrite filter_cons_False by done.
    apply IH; [done | | done]. intros k Hk. apply Hfresh. by right.
Qed.

(** In what a load returns, whatever the loader reached stands at its path
    as the object the loop stores for it. *)
Lemma loaded_stored attrs members path item ans :
  wf (Group attrs members) = true →
  load_members members [] = Ok ans →
  visits members path = Some item →
  is_datatype item = false →
  ∃ o, obj_at ans path = Some o ∧ stored item o.
Proof.
  revert attrs members ans.
  induction path as [|k path IH]; intros attrs members ans Hwf Hload; [done|].
  cbn [visits obj_at].
  destruct (dict_get members k) as [it|] eqn:Hget; [|done].
  apply dict_get_Some_elem_of in Hget.
  destruct (load_members_get _ _ _ (wf_NoDup _ _ Hwf) Hload) as [_ Hin].
  destruct path as [|k' path].
  - intros [= ->] Hitem. destruct (Hin k _ Hget Hitem) as (o & -> & Ho).
    by exists o.
  - destruct it as [v'|gattrs gcs|]; [done| |done].
    destruct (Hin k _ Hget) as (o & -> & Ho); [done|]. unfold stored in Ho.
    destruct (iterable gattrs); [done|]. destruct Ho as (d & Hd & ->).
    apply (IH gattrs gcs d); [by eapply wf_member | done].
Qed.

Lemma visits_getitem attrs members path item :
  visits members path = Some item →
  h5_getitem (Group attrs members) path = Ok item.
Proof.
  revert attrs members. induction path as [|k path IH]; intros attrs members;
    [done|].
  cbn [visits h5_getitem]. unfold member.
  destruct (dict_get members k) as [it|]; [|done]. cbn [mbind result_bind].
  destruct path as [|k' path]; [by intros [= ->]|].
  destruct it as [v|gattrs gcs|]; [done| |done].
  destruct (iterable gattrs); [done|]. apply IH.
Qed.

Lemma visits_wf_depth attrs members path item :
  wf (Group attrs members) = true → visits members path = Some item →
  wf item = true ∧ (depth item < depth (Group attrs members))%nat.
Proof.
  revert attrs members. induction path as [|k path IH]; intros attrs members;
    [done|].
  intros Hwf. cbn [visits].
  destruct (dict_get members k) as [it|] eqn:Hget; [|done].
  apply dict_get_Some_elem_of in Hget.
  pose proof (depth_member attrs _ _ _ Hget) as Hdepth.
  pose proof (wf_member _ _ _ _ Hwf Hget) as Hwf_it.
  destruct path as [|k' path]; [intros [= ->]; split; [done | lia]|].
  destruct it as [v|gattrs gcs|]; [done| |done].
  destruct (iterable gattrs); [done|]. intros Hvisit.
  destruct (IH gattrs gcs Hwf_it Hvisit) as [? ?]. split; [done | lia].
Qed.
End loader_more.

(** X6: on a store with distinct names in every group the loader returns a
    dictionary exactly when every marked group it reaches has a dataset under
    each of the names ["0"], ..., ["n-1"] for the number [n] of its members
    and every byte-string dataset it reaches outside the marked groups holds
    ASCII bytes only; otherwise it raises. *)
Theorem load_returns_iff_loadable (fuel : nat) (attrs : list (string * bool))
    (members : list (string * h5item)) :
  wf (Group attrs members) = true →
  (depth (Group attrs members) ≤ fuel)%nat →
  ((∃ ans, recursively_load_dict_contents_from_group fuel
             (Group attrs members) [] = Some (Ok ans))
   ↔ loadable_members members = true)
  ∧ (loadable_members members = false →
     ∃ e, recursively_load_dict_contents_from_group fuel
            (Group attrs members) [] = Some (Raise e)).
Proof.
  intros Hwf Hfuel. rewrite recursively_load_root by done.
  rewrite <-(load_members_ok members []). split.
  - split; [intros [ans [= Hans]]; by exists ans | intros [ans ->]; by exists ans].
  - intros Hno. destruct (load_members members []) as [ans|e] eqn:Hload.
    + assert (loadable_members members = true) as Hyes
        by (apply (load_members_ok members []); by exists ans).
      congruence.
    + by exists e.
Qed.

Lemma load_returns_iff_loadable_witness :
  let a (i : nat) := Dataset (NdArray "d" [] [Num (Z.of_nat i)]) in
  let members :=
    [("x", a 7);
     ("names", Dataset (NdArray "S" [1] [Bytes "ab"]));
     ("ty", Datatype);
     ("sub", Group [] [("g", Group [("_iterable", true)]
                              [("1", a 1); ("0", a 0)])])] in
  wf (Group [] members) = true
  ∧ ((∃ ans, recursively_load_dict_contents_from_group 3
               (Group [] members) [] = Some (Ok ans))
     ↔ loadable_members members = true).
Proof.
  intros a members. split; [reflexivity|].
  refine (proj1 (load_returns_iff_loadable 3 [] members _ _)).
  - reflexivity.
  - vm_compute. lia.
Defined.

(** X7: when the loader returns on a store with distinct names, the keys of
    the dictionary are the names of those members of the root group that are
    datasets or groups, in the order the store lists them; a member that is
    neither has no key. *)
Theorem load_keys_are_member_names (fuel : nat) (attrs : list (string * bool))
    (members : list (string * h5item)) (ans : pydict pyobj) :
  wf (Group attrs members) = true →
  (depth (Group attrs members) ≤ fuel)%nat →
  recursively_load_dict_contents_from_group fuel (Group attrs members) []
  = Some (Ok ans) →
  ans.*1 = (filter (λ kv, is_datatype kv.2 = false) members).*1.
Proof.
  intros Hwf Hfuel. rewrite recursively_load_root by done. intros [= Hload].
  apply load_members_keys in Hload; [done | by apply (wf_NoDup attrs) |].
  intros ? _. apply not_elem_of_nil.
Qed.

Lemma load_keys_are_member_names_witness :
  let a (i : nat) := Dataset (NdArray "d" [] [Num (Z.of_nat i)]) in
  let members :=
    [("x", a 7); ("ty", Datatype); ("sub", Group [] [("y", a 1)]); ("b", a 2)] in
  recursively_load_dict_contents_from_group 2 (Group [] members) []
  = Some (Ok [("x", PArr (NdArray "d" [] [Num 7]));
              ("sub", PDict [("y", PArr (NdArray "d" [] [Num 1]))]);
              ("b", PArr (NdArray "d" [] [Num 2]))])
  ∧ [("x", PArr (NdArray "d" [] [Num 7]));
     ("sub", PDict [("y", PArr (NdArray "d" [] [Num 1]))]);
     ("b", PArr (NdArray "d" [] [Num 2]))].*1 = ["x"; "sub"; "b"].
Proof.
  intros a members. split; [reflexivity|].
  apply (load_keys_are_member_names 2 [] members).
  - reflexivity.
  - vm_compute. lia.
  - reflexivity.
Defined.

(** X8: when the loader returns on a store with distinct names, every
    dataset it reached outside the marked groups stands in the result under
    the path of its names: as text, element by element and with its shape,
    when its element type is ["S"], and with its raw value otherwise. *)
Theorem load_exposes_datasets (fuel : nat) (attrs : list (string * bool))
    (members : list (string * h5item)) (ans : pydict pyobj)
    (path : list string) (v : ndarray) :
  wf (Group attrs members) = true →
  (depth (Group attrs members) ≤ fuel)%nat →
  recursively_load_dict_contents_from_group fuel (Group attrs members) []
  = Some (Ok ans) →
  visits members path = Some (Dataset v) →
  obj_at ans path
  = Some (PArr (if decide (dtype_char v = "S"%char)
                then NdArray "U" (shape v) (elem_str <$> data v)
                else v)).
Proof.
  intros Hwf Hfuel. rewrite recursively_load_root by done. intros [= Hload].
  intros Hvisit.
  destruct (loaded_stored attrs members path _ ans Hwf Hload Hvisit)
    as (o & -> & ->); [done|].
  done.
Qed.

Lemma load_exposes_datasets_witness :
  let v := NdArray "S" [2] [Bytes "ab"; Bytes "cd"] in
  let members := [("sub", Group [] [("names", Dataset v)])] in
  visits members ["sub"; "names"] = Some (Dataset v)
  ∧ obj_at [("sub", PDict [("names",
               PArr (NdArray "U" [2] [Text "ab"; Text "cd"]))])]
      ["sub"; "names"]
    = Some (PArr (NdArray "U" [2] [Text "ab"; Text "cd"])).
Proof.
  intros v members. split; [reflexivity|].
  apply (load_exposes_datasets 2 [] members _ ["sub"; "names"] v).
  - reflexivity.
  - vm_compute. lia.
  - reflexivity.
  - reflexivity.
Defined.

(** X9: when the loader returns on a store with distinct names, every marked
    group it reached stands in the result as a list with one element per
    member of the group, and the element at index [i] is the raw value of
    the dataset named [str(i)]. *)
Theorem load_lists_ordered_groups (fuel : nat) (attrs gattrs : list (string * bool))
    (members cs : list (string * h5item)) (ans : pydict pyobj)
    (path : list string) :
  wf (Group attrs members) = true →
  (depth (Group attrs members) ≤ fuel)%nat →
  recursively_load_dict_contents_from_group fuel (Group attrs members) []
  = Some (Ok ans) →
  visits members path = Some (Group gattrs cs) →
  iterable gattrs = true →
  ∃ l, obj_at ans path = Some (PList l)
       ∧ length l = length cs
       ∧ ∀ i v, l !! i = Some v → dict_get cs (pretty i) = Some (Dataset v).
Proof.
  intros Hwf Hfuel. rewrite recursively_load_root by done. intros [= Hload].
  intros Hvisit Hmark.
  destruct (loaded_stored attrs members path _ ans Hwf Hload Hvisit)
    as (o & Hobj & Ho); [done|].
  unfold stored in Ho. rewrite Hmark in Ho. destruct Ho as (l & Hread & ->).
  exists l. split; [done|].
  by apply (read_elements_values cs 0 (length cs) l).
Qed.

Lemma load_lists_ordered_groups_witness :
  let a (i : nat) := NdArray "d" [] [Num (Z.of_nat i)] in
  let cs := [("1", Dataset (a 1)); ("0", Dataset (a 0))] in
  let members := [("g", Group [("_iterable", true)] cs)] in
  visits members ["g"] = Some (Group [("_iterable", true)] cs)
  ∧ ∃ l, obj_at [("g", PList [a 0; a 1])] ["g"] = Some (PList l)
         ∧ length l = length cs
         ∧ ∀ i v, l !! i = Some v → dict_get cs (pretty i) = Some (Dataset v).
Proof.
  intros a cs members. split; [reflexivity|].
  apply (load_lists_ordered_groups 2 [] [("_iterable", true)] members cs
           [("g", PList [a 0; a 1])] ["g"]).
  - reflexivity.
  - vm_compute. lia.
  - reflexivity.
  - reflexivity.
  - reflexivity.
Defined.

(** X10: loading composes with paths.  When the loader returns on a store
    with distinct names, loading at the path of a group it descended into
    returns the dictionary that stands under that path in the result of
    loading the root. *)
Theorem load_at_path_is_subdictionary (fuel : nat)
    (attrs gattrs : list (string * bool))
    (members cs : list (string * h5item)) (ans : pydict pyobj)
    (path : list string) :
  wf (Group attrs members) = true →
  (depth (Group attrs members) ≤ fuel)%nat →
  recursively_load_dict_contents_from_group fuel (Group attrs members) []
  = Some (Ok ans) →
  visits members path = Some (Group gattrs cs) →
  iterable gattrs = false →
  ∃ d, recursively_load_dict_contents_from_group fuel (Group attrs members) path
       = Some (Ok d)
       ∧ obj_at ans path = Some (PDict d).
Proof.
  intros Hwf Hfuel. rewrite recursively_load_root by done. intros [= Hload].
  intros Hvisit Hmark.
  destruct (loaded_stored attrs members path _ ans Hwf Hload Hvisit)
    as (o & Hobj & Ho); [done|].
  unfold stored in Ho. rewrite Hmark in Ho. destruct Ho as (d & Hd & ->).
  exists d. split; [|done].
  destruct (visits_wf_depth attrs members path _ Hwf Hvisit) as [Hwf' Hdepth].
  rewrite (recursively_load_load_item fuel _ path gattrs cs);
    [| by apply visits_getitem | done | lia].
  by rewrite load_item_Group, Hd.
Qed.

Lemma load_at_path_is_subdictionary_witness :
  let a (i : nat) := Dataset (NdArray "d" [] [Num (Z.of_nat i)]) in
  let members := [("x", a 7); ("sub", Group [] [("y", a 1)])] in
  visits members ["sub"] = Some (Group [] [("y", a 1)])
  ∧ ∃ d, recursively_load_dict_contents_from_group 2 (Group [] members) ["sub"]
         = Some (Ok d)
         ∧ obj_at [("x", PArr (NdArray "d" [] [Num 7]));
                   ("sub", PDict [("y", PArr (NdArray "d" [] [Num 1]))])]
             ["sub"]
           = Some (PDict d).
Proof.
  intros a members. split; [reflexivity|].
  apply (load_at_path_is_subdictionary 2 [] [] members [("y", a 1)] _ ["sub"]).
  - reflexivity.
  - vm_compute. lia.
  - reflexivity.
  - reflexivity.
  - reflexivity.
Defined.

(** X11: the loader returns or raises on every store with distinct names:
    fuel for the nesting depth of the file is enough, and with more fuel the
    outcome is the same. *)
Theorem load_needs_depth_fuel (fuel : nat) (attrs : list (string * bool))
    (members : list (string * h5item)) :
  wf (Group attrs members) = true →
  (depth (Group attrs members) ≤ fuel)%nat →
  is_Some (recursively_load_dict_contents_from_group fuel
             (Group attrs members) [])
  ∧ recursively_load_dict_contents_from_group fuel (Group attrs members) []
    = recursively_load_dict_contents_from_group
        (depth (Group attrs members)) (Group attrs members) [].
Proof.
  intros Hwf Hfuel. rewrite !recursively_load_root by done. by split.
Qed.

Lemma load_needs_depth_fuel_witness :
  let a (i : nat) := Dataset (NdArray "d" [] [Num (Z.of_nat i)]) in
  let members := [("x", a 7); ("sub", Group [] [("y", a 1)])] in
  wf (Group [] members) = true
  ∧ is_Some (recursively_load_dict_contents_from_group 5 (Group [] members) []).
Proof.
  intros a members. split; [reflexivity|].
  refine (proj1 (load_needs_depth_fuel 5 [] members _ _)).
  - reflexivity.
  - vm_compute. lia.
Defined.

(** * HiddenPrints *)

Lemma fn_set_eq {A} (f : nat → A) i a : fn_set f i a i = a.
Proof. unfold fn_set. by rewrite decide_True. Qed.

Lemma fn_set_ne {A} (f : nat → A) i j a : j ≠ i → fn_set f i a j = f j.
Proof. intros Hne. unfold fn_set. by rewrite decide_False. Qed.

(** The state a [with] block of [HiddenPrints] ends in, for a body that
    leaves [sys.stdout] and the attribute of the instance as they are. *)
Lemma with_HiddenPrints_state {A} (self : nat)
    (body : interp → result A * interp) (rt : interp) :
  sys_stdout (body (HiddenPrints_enter self rt)).2 = next_file rt →
  original_stdout (body (HiddenPrints_enter self rt)).2 self
  = Some (sys_stdout rt) →
  with_HiddenPrints self body rt
  = ((body (HiddenPrints_enter self rt)).1,
     Interp (files (file_close (next_file rt)
                      (body (HiddenPrints_enter self rt)).2))
            (next_file (body (HiddenPrints_enter self rt)).2)
            (sys_stdout rt)
            (original_stdout (body (HiddenPrints_enter self rt)).2)).
Proof.
  unfold with_HiddenPrints.
  destruct (body (HiddenPrints_enter self rt)) as [r rt2]. cbn [fst snd].
  intros Hout Hattr. unfold HiddenPrints_exit.
  cbn [file_close original_stdout]. by rewrite Hattr, Hout.
Qed.

Lemma HiddenPrints_exit_state (self : nat) (rt : interp) (f : nat) :
  original_stdout rt self = Some f →
  HiddenPrints_exit self rt
  = (Ok (), Interp (files (file_close (sys_stdout rt) rt)) (next_file rt) f
              (original_stdout rt)).
Proof. unfold HiddenPrints_exit. cbn [file_close original_stdout]. by intros ->. Qed.


(** X12: a [with HiddenPrints()] block whose body leaves [sys.stdout] and
    the instance alone ends with [sys.stdout] referring to the file it
    referred to before the block, and with the file the block opened on
    [os.devnull] closed; it returns what the body returned and raises what
    the body raised. *)
Theorem HiddenPrints_restores_stdout {A} (self : nat)
    (body : interp → result A * interp) (rt : interp) :
  sys_stdout (body (HiddenPrints_enter self rt)).2
  = sys_stdout (HiddenPrints_enter self rt) →
  original_stdout (body (HiddenPrints_enter self rt)).2 self
  = original_stdout (HiddenPrints_enter self rt) self →
  (with_HiddenPrints self body rt).1 = (body (HiddenPrints_enter self rt)).1
  ∧ sys_stdout (with_HiddenPrints self body rt).2 = sys_stdout rt
  ∧ closed (files (with_HiddenPrints self body rt).2 (next_file rt)) = true.
Proof.
  intros Hout Hattr.
  cbn [HiddenPrints_enter sys_stdout original_stdout] in Hout, Hattr.
  rewrite fn_set_eq in Hattr.
  rewrite (with_HiddenPrints_state self body rt Hout Hattr).
  cbn [fst snd sys_stdout files file_close]. by rewrite fn_set_eq.
Qed.

Lemma HiddenPrints_restores_stdout_witness :
  let rt := Interp (λ _, File false false []) 1 0 (λ _, None) in
  let body := λ rt', (Raise (A:=unit) (ValueError "boom"),
                      (stdout_write "hello" rt').2) in
  (with_HiddenPrints 0 body rt).1 = Raise (ValueError "boom")
  ∧ sys_stdout (with_HiddenPrints 0 body rt).2 = 0
  ∧ closed (files (with_HiddenPrints 0 body rt).2 1) = true.
Proof.
  intros rt body.
  apply (HiddenPrints_restores_stdout 0 body rt); reflexivity.
Defined.


(** X14: one [HiddenPrints] instance used for two nested [with] blocks
    loses the original [sys.stdout]: the inner [__enter__] overwrites
    [_original_stdout] with the file of the outer block, so after both
    blocks [sys.stdout] refers to that file, which is closed, and the next
    write to [sys.stdout] raises [ValueError]. *)
Theorem HiddenPrints_reused_instance_closes_stdout {A} (self : nat)
    (body : interp → result A * interp) (rt : interp) (s : string) :
  sys_stdout (body (HiddenPrints_enter self (HiddenPrints_enter self rt))).2
  = sys_stdout (HiddenPrints_enter self (HiddenPrints_enter self rt)) →
  original_stdout
    (body (HiddenPrints_enter self (HiddenPrints_enter self rt))).2 self
  = original_stdout (HiddenPrints_enter self (HiddenPrints_enter self rt)) self →
  sys_stdout (with_HiddenPrints self (with_HiddenPrints self body) rt).2
  = next_file rt
  ∧ closed (files (with_HiddenPrints self (with_HiddenPrints self body) rt).2
              (next_file rt)) = true
  ∧ (stdout_write s
       (with_HiddenPrints self (with_HiddenPrints self body) rt).2).1
    = Raise (ValueError "I/O operation on closed file.").
Proof.
  intros Hout Hattr.
  cbn [HiddenPrints_enter sys_stdout original_stdout next_file] in Hout, Hattr.
  rewrite fn_set_eq in Hattr.
  unfold with_HiddenPrints.
  destruct (body (HiddenPrints_enter self (HiddenPrints_enter self rt)))
    as [r inner].
  cbn [snd] in Hout, Hattr.
  rewrite (HiddenPrints_exit_state self inner (next_file rt) Hattr).
  rewrite (HiddenPrints_exit_state self _ (next_file rt)) by exact Hattr.
  cbn [snd sys_stdout files file_close]. rewrite fn_set_eq.
  split; [done|]. split; [done|].
  unfold stdout_write. cbn [files sys_stdout closed]. by rewrite fn_set_eq.
Qed.

Lemma HiddenPrints_reused_instance_closes_stdout_witness :
  let rt := Interp (λ _, File false false []) 1 0 (λ _, None) in
  let body := stdout_write_all ["hidden"] in
  sys_stdout (with_HiddenPrints 0 (with_HiddenPrints 0 body) rt).2 = 1
  ∧ closed (files (with_HiddenPrints 0 (with_HiddenPrints 0 body) rt).2 1)
    = true
  ∧ (stdout_write "after"
       (with_HiddenPrints 0 (with_HiddenPrints 0 body) rt).2).1
    = Raise (ValueError "I/O operation on closed file.").
Proof.
  intros rt body.
  apply (HiddenPrints_reused_instance_closes_stdout 0 body rt "after");
    reflexivity.
Defined.

(** * no_transforms *)

Section no_transforms_facts.
Context {T : Type}.
Implicit Types (d : dataset T) (ts : list T).

(** Appending to [dat.transforms] changes the list the attribute refers to
    and no other. *)
Lemma transforms_append_all_state ts d l :
  transforms d = Some l →
  (transforms_append_all ts d).1 = Ok ()
  ∧ transforms (transforms_append_all ts d).2 = Some l
  ∧ next_list (transforms_append_all ts d).2 = next_list d
  ∧ lists (transforms_append_all ts d).2 l = lists d l ++ ts
  ∧ ∀ i, i ≠ l → lists (transforms_append_all ts d).2 i = lists d i.
Proof.
  revert d. induction ts as [|t ts IH]; intros d Hl.
  { cbn [transforms_append_all fst snd]. by rewrite app_nil_r. }
  cbn [transforms_append_all]. unfold transforms_append. rewrite Hl.
  edestruct IH as (Hr & Hattr & Hnext & Hlist & Hother).
  2: { rewrite Hr, Hattr, Hnext, Hlist. cbn [next_list lists].
       rewrite fn_set_eq, <-app_assoc. repeat split.
       intros i Hi. rewrite Hother by done. cbn [lists]. by rewrite fn_set_ne. }
  done.
Qed.
End no_transforms_facts.

(** X15: a [with no_transforms(dat)] block starts its body with
    [dat.transforms] an empty list and ends with the attribute referring to
    the list object it referred to before, whether the body returned or
    raised; when the body has not changed the lists that existed before the
    block, the transforms of [dat] read after the block as they read
    before it. *)
Theorem no_transforms_restores {T A} (body : dataset T → result A * dataset T)
    (d : dataset T) (saved : nat) :
  transforms d = Some saved →
  (saved < next_list d)%nat →
  (∀ i, (i < next_list d)%nat →
        lists (body (clear_transforms d)).2 i = lists d i) →
  read_transforms (clear_transforms d) = Ok []
  ∧ (with_no_transforms body d).1 = (body (clear_transforms d)).1
  ∧ transforms (with_no_transforms body d).2 = Some saved
  ∧ read_transforms (with_no_transforms body d).2 = read_transforms d.
Proof.
  intros Hsaved Hlt Hbody. unfold with_no_transforms. rewrite Hsaved.
  destruct (body (clear_transforms d)) as [r d2]. cbn [fst snd] in *.
  split; [|split; [done|split; [done|]]].
  - unfold read_transforms, clear_transforms. cbn [transforms lists].
    by rewrite fn_set_eq.
  - unfold read_transforms. cbn [transforms lists]. rewrite Hsaved.
    by rewrite Hbody.
Qed.

Lemma no_transforms_restores_witness :
  let d := Dataset_obj (λ i, if decide (i = 0) then ["crop"; "scale"] else [])
             1 (Some 0) in
  let body := λ d', (Raise (A:=unit) (ValueError "boom"),
                     (transforms_append "flip" d').2) in
  transforms d = Some 0
  ∧ (with_no_transforms body d).1 = Raise (ValueError "boom")
  ∧ read_transforms (with_no_transforms body d).2 = Ok ["crop"; "scale"].
Proof.
  intros d body. split; [reflexivity|].
  refine (let H := no_transforms_restores body d 0 _ _ _ in
          conj (proj1 (proj2 H)) (proj2 (proj2 (proj2 H)))).
  - reflexivity.
  - simpl. lia.
  - intros i Hi. simpl in Hi. assert (i = 0) as -> by lia. reflexivity.
Defined.

(** X16: transforms appended to [dat.transforms] inside a
    [with no_transforms(dat)] block go to the list of the block and are gone
    after it: the appends succeed, the list of the block holds exactly
    them, and after the block the transforms of [dat] read as before;
    outside a block the same appends extend the transforms of [dat]. *)
Theorem no_transforms_discards_appends {T} (ts : list T) (d : dataset T)
    (saved : nat) :
  transforms d = Some saved →
  (saved < next_list d)%nat →
  (with_no_transforms (transforms_append_all ts) d).1 = Ok ()
  ∧ lists (with_no_transforms (transforms_append_all ts) d).2 (next_list d)
    = ts
  ∧ read_transforms (with_no_transforms (transforms_append_all ts) d).2
    = read_transforms d
  ∧ read_transforms (transforms_append_all ts d).2
    = Ok (lists d saved ++ ts).
Proof.
  intros Hsaved Hlt.
  destruct (transforms_append_all_state ts (clear_transforms d) (next_list d))
    as (Hr & Hattr & Hnext & Hlist & Hother); [done|].
  destruct (transforms_append_all_state ts d saved Hsaved)
    as (_ & Hattr' & _ & Hlist' & _).
  unfold with_no_transforms. rewrite Hsaved.
  destruct (transforms_append_all ts (clear_transforms d)) as [r d2].
  cbn [fst snd] in *. split; [done|]. split; [|split].
  - cbn [lists]. rewrite Hlist. unfold clear_transforms. cbn [lists].
    by rewrite fn_set_eq.
  - unfold read_transforms. cbn [transforms lists]. rewrite Hsaved.
    rewrite Hother by lia. unfold clear_transforms. cbn [lists].
    rewrite fn_set_ne by lia. done.
  - unfold read_transforms. by rewrite Hattr', Hlist'.
Qed.

Lemma no_transforms_discards_appends_witness :
  let d := Dataset_obj (λ i, if decide (i = 0) then ["crop"; "scale"] else [])
             1 (Some 0) in
  transforms d = Some 0
  ∧ read_transforms (with_no_transforms (transforms_append_all ["flip"]) d).2
    = Ok ["crop"; "scale"]
  ∧ read_transforms (transforms_append_all ["flip"] d).2
    = Ok ["crop"; "scale"; "flip"].
Proof.
  intros d. split; [reflexivity|].
  refine (let H := no_transforms_discards_appends ["flip"] d 0 _ _ in
          conj (proj1 (proj2 (proj2 H))) (proj2 (proj2 (proj2 H)))).
  - reflexivity.
  - simpl. lia.
Defined.

(** * Ordered groups: the length and the members read *)

Section ordered_group_length.
Implicit Types (items members cs : list (string * h5item)).



End ordered_group_length.



(** C4, as the specification words it, does not hold: in the marked group
    with the members ["0"], ["1"] and ["3"], of which ["0"] is a group, the
    index 2 is below the length and has no member, but the load raises the
    [TypeError] of reading the group ["0"] as a dataset, not a [KeyError]. *)
Lemma absent_index_may_raise_TypeError :
  let d := Dataset (NdArray "d" [] [Num 1]) in
  let cs := [("0", Group [] []); ("1", d); ("3", d)] in
  let members := [("g", Group [("_iterable", true)] cs)] in
  visits members ["g"] = Some (Group [("_iterable", true)] cs)
  ∧ (2 < length cs)%nat
  ∧ dict_get cs (pretty 2) = None
  ∧ recursively_load_dict_contents_from_group 2 (Group [] members) []
    = Some (Raise TypeError)
  ∧ ¬ ∃ k, recursively_load_dict_contents_from_group 2 (Group [] members) []
           = Some (Raise (KeyError k)).
Proof.
  intros d cs members. split; [reflexivity|]. split; [simpl; lia|].
  split; [reflexivity|]. split; [reflexivity|].
  intros [k Hk]. vm_compute in Hk. discriminate Hk.
Qed.

(** C4, amended: on a store with distinct names in every group, when a
    marked group that the loader reaches has no member for an index below
    its length, the load raises and returns nothing, no shorter list and no
    default; the exception is the store's [KeyError] whenever the members
    of the marked groups are datasets and the byte-string datasets outside
    them are ASCII, so that no other exception comes first. *)
Theorem absent_index_raises (fuel : nat)
    (rattrs attrs : list (string * bool))
    (members cs : list (string * h5item)) (path : list string) (i : nat) :
  wf (Group rattrs members) = true →
  (depth (Group rattrs members) ≤ fuel)%nat →
  visits members path = Some (Group attrs cs) →
  iterable attrs = true →
  (i < length cs)%nat →
  dict_get cs (pretty i) = None →
  ∃ e, recursively_load_dict_contents_from_group fuel (Group rattrs members) []
       = Some (Raise e)
       ∧ (leaf_shaped_members members = true →
          decodable_members members = true →
          ∃ k, e = KeyError k).
Proof.
  intros Hwf Hfuel Hvisit Hmark Hi Hnone.
  rewrite recursively_load_root by done.
  destruct (visits_missing_raises path members [] attrs cs i) as [e He];
    [done..|].
  exists e. split; [by rewrite He|].
  intros Hshape Hdec. by apply (load_members_error members [] e).
Qed.

Lemma absent_index_raises_witness :
  let a (i : nat) := Dataset (NdArray "d" [] [Num (Z.of_nat i)]) in
  let cs := [("0", a 0); ("1", a 1); ("3", a 3); ("4", a 4)] in
  let members :=
    [("x", a 7); ("sub", Group [] [("g", Group [("_iterable", true)] cs)])] in
  visits members ["sub"; "g"] = Some (Group [("_iterable", true)] cs)
  ∧ dict_get cs (pretty 2) = None
  ∧ ∃ e, recursively_load_dict_contents_from_group 3 (Group [] members) []
         = Some (Raise e)
         ∧ (leaf_shaped_members members = true →
            decodable_members members = true →
            ∃ k, e = KeyError k).
Proof.
  intros a cs members. split; [reflexivity|]. split; [reflexivity|].
  apply (absent_index_raises 3 [] [("_iterable", true)] members cs
           ["sub"; "g"] 2).
  - reflexivity.
  - vm_compute. lia.
  - reflexivity.
  - reflexivity.
  - simpl. lia.
  - reflexivity.
Defined.
